(** * librpc: the typing layer and the server life cycle

    A shallow embedding of the parts of [rpc_typing] and [rpc_server]
    that the specification makes promises about: type lookup, type
    instantiation and its canonical cache, typedef unwinding, the
    compatibility relation, argument validation, the pre-call hook, and
    closing a server.

    Conventions.
    - A [struct rpct_type] is immutable once it sits in the type table, and
      its [parent] is a type that existed before it; types are therefore
      values, and the parent chain is a finite chain of values.
    - A [struct rpct_typei] lives at an address of a heap: instances are
      shared (the cache hands out the same pointer twice) and a typedef's
      [definition] is a pointer, so chains of definitions are followed
      through the heap.
    - A [GHashTable] keyed by strings is a [gmap string _]; the order in
      which [g_hash_table_iter_next] walks it is a parameter.
    - [rpc_set_last_errorf] writes the thread's last-error slot, which none
      of the functions below reads back; it is left out. *)

From Stdlib Require Import ZArith Lia Ascii String.
From stdpp Require Import base option list strings pretty gmap.

Set Warnings "-register-all,-clear-no-such-hyp".

Local Open Scope string_scope.
Local Open Scope Z_scope.

(** ** Pointers and arrays *)

(** The address of a [struct rpct_typei]. *)
Definition typei_ptr := nat.

(** What a C expression of pointer type evaluates to: [NULL], a valid
    object, or a read past the end of a [GPtrArray] (undefined behaviour;
    [g_ptr_array_index] is the unchecked macro [(array)->pdata[index]]). *)
Inductive cptr (A : Type) : Type :=
  | Null
  | Ptr (a : A)
  | OutOfBounds.
Arguments Null {A}.
Arguments Ptr {A} a.
Arguments OutOfBounds {A}.

(** [g_ptr_array_index (array, index)]. *)
Definition g_ptr_array_index {A} (array : list A) (index : Z) : cptr A :=
  if index <? 0 then OutOfBounds
  else match array !! Z.to_nat index with
       | Some a => Ptr a
       | None => OutOfBounds
       end.

(** [(int)array->len]: a [guint] reinterpreted as a 32-bit [int]. *)
Definition int_of_guint (len : nat) : Z :=
  let u := Z.of_nat len mod 2 ^ 32 in
  if u <? 2 ^ 31 then u else u - 2 ^ 32.

(** [g_strcmp0 (a, b) == 0], which also accepts [NULL] strings. *)
Definition g_strcmp0_eq (a b : option string) : bool :=
  match a, b with
  | Some x, Some y => String.eqb x y
  | None, None => true
  | _, _ => false
  end.

(** ** Running C code: results, faults and fuel *)

(** A call either returns, or faults (it dereferences [NULL] or a dangling
    pointer, or an assertion aborts the process), or is cut off because the
    fuel given to a loop or a recursion ran out. *)
Inductive run (A : Type) : Type :=
  | Done (a : A)
  | Crash
  | Timeout.
Arguments Done {A} a.
Arguments Crash {A}.
Arguments Timeout {A}.

Definition run_bind {A B} (m : run A) (k : A -> run B) : run B :=
  match m with
  | Done a => k a
  | Crash => Crash
  | Timeout => Timeout
  end.

Notation "'let*' x ':=' m 'in' k" := (run_bind m (fun x => k))
  (at level 10, x pattern, m at level 100, k at level 200).

(** ** The data model *)

Inductive rpct_class_t :=
  | RPC_TYPING_STRUCT
  | RPC_TYPING_UNION
  | RPC_TYPING_ENUM
  | RPC_TYPING_TYPEDEF
  | RPC_TYPING_BUILTIN.

Definition rpct_class_eqb (a b : rpct_class_t) : bool :=
  match a, b with
  | RPC_TYPING_STRUCT, RPC_TYPING_STRUCT
  | RPC_TYPING_UNION, RPC_TYPING_UNION
  | RPC_TYPING_ENUM, RPC_TYPING_ENUM
  | RPC_TYPING_TYPEDEF, RPC_TYPING_TYPEDEF
  | RPC_TYPING_BUILTIN, RPC_TYPING_BUILTIN => true
  | _, _ => false
  end.

(** [struct rpct_file]: the fields name resolution reads. *)
Module rpct_file.
Record t := Build {
  path : string;
  ns : option string;
  uses : list string
}.
End rpct_file.

(** [struct rpct_type]. *)
Module rpct_type.
Inductive t := Build {
  name : string;
  clazz : rpct_class_t;
  generic : bool;
  generic_vars : list string;
  parent : option t;
  definition : option typei_ptr;
  file : option rpct_file.t
}.
End rpct_type.

(** [struct rpct_typei].  A proxy is allocated with [g_malloc0] and only
    gets [proxy], [variable] and [canonical_form]: its [type] and its
    [specializations] stay [NULL] and its [refcnt] stays 0. *)
Module rpct_typei.
Record t := Build {
  proxy : bool;
  type : option rpct_type.t;
  variable : option string;
  canonical_form : option string;
  specializations : option (gmap string typei_ptr);
  parent : option typei_ptr;
  refcnt : Z
}.
End rpct_typei.

(** [struct rpct_argument] and [struct rpct_if_member]. *)
Module rpct_argument.
Record t := Build {
  name : string;
  description : option string;
  type : typei_ptr
}.
End rpct_argument.

Module rpct_if_member.
Record t := Build {
  rim_name : string;
  description : option string;
  arguments : option (list rpct_argument.t);
  result : option typei_ptr
}.
End rpct_if_member.

(** ** Accessors of the public API *)

(** [rpct_type_get_generic_vars_count (type)]. *)
Definition rpct_type_get_generic_vars_count (type : rpct_type.t) : Z :=
  if negb (rpct_type.generic type) then 0
  else int_of_guint (length (rpct_type.generic_vars type)).

(** [rpct_type_get_generic_var (type, index)]. *)
Definition rpct_type_get_generic_var (type : rpct_type.t) (index : Z)
  : cptr string :=
  if (index <? 0) || (index >? int_of_guint (length (rpct_type.generic_vars type)))
  then Null
  else g_ptr_array_index (rpct_type.generic_vars type) index.

(** [rpct_method_get_argument] dereferences [method->arguments] without a
    [NULL] test; a member without an argument array makes it fault. *)
Definition rpct_method_get_argument (method : rpct_if_member.t) (index : Z)
  : run (cptr rpct_argument.t) :=
  match rpct_if_member.arguments method with
  | None => Crash
  | Some arguments =>
      Done (if (index <? 0) || (index >? int_of_guint (length arguments))
            then Null
            else g_ptr_array_index arguments index)
  end.

(** ** Objects *)

Inductive rpc_type_t :=
  | RPC_TYPE_NULL
  | RPC_TYPE_BOOL
  | RPC_TYPE_UINT64
  | RPC_TYPE_INT64
  | RPC_TYPE_DOUBLE
  | RPC_TYPE_DATE
  | RPC_TYPE_STRING
  | RPC_TYPE_BINARY
  | RPC_TYPE_FD
  | RPC_TYPE_DICTIONARY
  | RPC_TYPE_ARRAY
  | RPC_TYPE_ERROR.

Definition rpc_type_is_null (t : rpc_type_t) : bool :=
  match t with RPC_TYPE_NULL => true | _ => false end.

(** [union rpc_value], by the member that is live. *)
Inductive rpc_value (O : Type) : Type :=
  | rv_none
  | rv_b (b : bool)
  | rv_ui (u : Z)
  | rv_i (i : Z)
  | rv_str (s : string)
  | rv_fd (fd : Z)
  | rv_list (l : list O)
  | rv_dict (d : list (string * O))
  | rv_error (code : Z) (message : string) (extra : option O).
Arguments rv_none {O}.
Arguments rv_b {O} b.
Arguments rv_ui {O} u.
Arguments rv_i {O} i.
Arguments rv_str {O} s.
Arguments rv_fd {O} fd.
Arguments rv_list {O} l.
Arguments rv_dict {O} d.
Arguments rv_error {O} code message extra.

(** [struct rpc_object]: the tag, the type-instance annotation and the
    value. *)
Inductive rpc_object := Build_rpc_object {
  ro_type : rpc_type_t;
  ro_typei : option typei_ptr;
  ro_value : rpc_value rpc_object
}.

(** The elements of an array object, in order. *)
Definition rpc_array_items (o : rpc_object) : list rpc_object :=
  match ro_value o with
  | rv_list l => l
  | _ => []
  end.

(** Modelled from the spec: [rpc_array_apply] of the object model, which is
    not part of these sources.  "[apply] iterates and stops early if the
    callback returns stop"; the callers here treat a [true] result as
    "stopped early".  The callback is a block that updates the variables it
    captured by reference, here the state [St]. *)
Fixpoint rpc_array_apply_from {St} (idx : nat) (items : list rpc_object)
    (applier : nat -> rpc_object -> St -> run (bool * St)) (s : St)
  : run (bool * St) :=
  match items with
  | [] => Done (false, s)
  | v :: rest =>
      let* (go_on, s') := applier idx v s in
      if go_on : bool then rpc_array_apply_from (S idx) rest applier s'
      else Done (true, s')
  end.

(** Modelled from the spec: [rpc_array_apply] proper, the iteration from
    the first item of the array on. *)
Definition rpc_array_apply {St} (array : rpc_object)
    (applier : nat -> rpc_object -> St -> run (bool * St)) (s : St)
  : run (bool * St) :=
  rpc_array_apply_from 0%nat (rpc_array_items array) applier s.

(** ** The typing context and the heap of type instances *)

Module rpct_interface.
Record t := Build {
  name : string;
  members : gmap string rpct_if_member.t
}.
End rpct_interface.

(** [struct rpct_context]: the global tables. *)
Module rpct_context.
Record t := Build {
  types : gmap string rpct_type.t;
  interfaces : gmap string rpct_interface.t;
  typei_cache : gmap string typei_ptr
}.
End rpct_context.

(** The process state the typing layer works on: the file-scope [context],
    the allocated [struct rpct_typei] objects, and the next address
    [g_malloc0] hands out. *)
Record world := Build_world {
  context : rpct_context.t;
  heap : gmap typei_ptr rpct_typei.t;
  brk : typei_ptr
}.

(** Field updates. *)
Definition set_heap (h : gmap typei_ptr rpct_typei.t) (w : world) : world :=
  {| context := context w; heap := h; brk := brk w |}.

Definition set_typei_cache (c : gmap string typei_ptr) (w : world) : world :=
  {| context := {| rpct_context.types := rpct_context.types (context w);
                   rpct_context.interfaces := rpct_context.interfaces (context w);
                   rpct_context.typei_cache := c |};
     heap := heap w; brk := brk w |}.

(** [g_malloc0] followed by the initialisation of the fields. *)
Definition alloc_typei (ti : rpct_typei.t) (w : world) : typei_ptr * world :=
  (brk w, {| context := context w; heap := <[brk w := ti]> (heap w);
             brk := S (brk w) |}).

(** ** Type lookup *)

Section Lookup.

(** [rpct_lookup_type] followed by [rpct_read_type]: the lazy load of a type
    that is declared in a loaded file but not yet in the type table.  It
    walks the YAML bodies through the class handlers and the object
    accessors, none of which is part of these sources; it may add types to
    the table and instances to the heap. *)
Variable rpct_chain_load : string -> world -> world.

(** [rpct_find_type (name)]: the table first, then the lazy load and the
    table again. *)
Definition rpct_find_type (name : string) (w : world)
  : option rpct_type.t * world :=
  match rpct_context.types (context w) !! name with
  | Some type => (Some type, w)
  | None =>
      let w' := rpct_chain_load name w in
      (rpct_context.types (context w') !! name, w')
  end.

(** The loop over [origin->uses] of [rpct_find_type_fuzzy]. *)
Fixpoint rpct_find_type_uses (name : string) (uses : list string) (w : world)
  : option rpct_type.t * world :=
  match uses with
  | [] => (None, w)
  | prefix :: rest =>
      let full_name := prefix +:+ "." +:+ name in
      match rpct_find_type full_name w with
      | (Some result, w') => (Some result, w')
      | (None, w') => rpct_find_type_uses name rest w'
      end
  end.

(** [rpct_find_type_fuzzy (name, origin)]. *)
Definition rpct_find_type_fuzzy (name : string) (origin : option rpct_file.t)
    (w : world) : option rpct_type.t * world :=
  match rpct_find_type name w with
  | (Some result, w1) => (Some result, w1)
  | (None, w1) =>
      match origin with
      | None => (None, w1)
      | Some origin =>
          let after_ns :=
            match rpct_file.ns origin with
            | Some ns => rpct_find_type (ns +:+ "." +:+ name) w1
            | None => (None, w1)
            end in
          match after_ns with
          | (Some result, w2) => (Some result, w2)
          | (None, w2) => rpct_find_type_uses name (rpct_file.uses origin) w2
          end
      end
  end.

(** The resolution order as the specification words it: the candidates, in
    order, and the first of them that is found. *)
Definition fuzzy_candidates (name : string) (origin : option rpct_file.t)
  : list string :=
  name ::
  match origin with
  | None => []
  | Some origin =>
      match rpct_file.ns origin with
      | Some ns => [ns +:+ "." +:+ name]
      | None => []
      end ++ map (fun prefix => prefix +:+ "." +:+ name) (rpct_file.uses origin)
  end.

(** The first candidate that [rpct_find_type] finds. *)
Fixpoint first_found (candidates : list string) (w : world)
  : option rpct_type.t * world :=
  match candidates with
  | [] => (None, w)
  | c :: rest =>
      match rpct_find_type c w with
      | (Some result, w') => (Some result, w')
      | (None, w') => first_found rest w'
      end
  end.

End Lookup.

(** ** Hash tables of specializations *)

(** [g_hash_table_size] answers 0 for a [NULL] table (its precondition
    check returns early). *)
Definition g_hash_table_size (table : option (gmap string typei_ptr)) : nat :=
  match table with
  | Some m => size m
  | None => 0%nat
  end.

(** ** Unwinding typedefs *)

(** [rpct_unwind_typei]: one unit of fuel per [continue] of the loop.  The
    result is the pointer the function returns, [None] for [NULL]. *)
Fixpoint rpct_unwind_typei (fuel : nat) (h : gmap typei_ptr rpct_typei.t)
    (current : option typei_ptr) : run (option typei_ptr) :=
  match current with
  | None => Done None
  | Some p =>
      match h !! p with
      | None => Crash
      | Some ti =>
          match rpct_typei.type ti with
          | None => Crash
          | Some type =>
              if rpct_class_eqb (rpct_type.clazz type) RPC_TYPING_TYPEDEF
              then match fuel with
                   | O => Timeout
                   | S fuel' =>
                       rpct_unwind_typei fuel' h (rpct_type.definition type)
                   end
              else Done (Some p)
          end
      end
  end.

(** ** Compatibility *)

(** The [while (1)] loop of [rpct_type_is_compatible], entered with
    [parent_type]; [target] is the name each ancestor is compared with. *)
Fixpoint parent_chain_has (target : string) (parent_type : rpct_type.t) : bool :=
  match rpct_type.parent parent_type with
  | None => false
  | Some p =>
      if String.eqb (rpct_type.name p) target then true
      else parent_chain_has target p
  end.

(** [rpct_type_is_compatible], on the two instances the pointers refer to.
    A proxy, whose [type] is [NULL], makes it fault. *)
Definition rpct_type_is_compatible (decl type : rpct_typei.t) : run bool :=
  match rpct_typei.type decl with
  | None => Crash
  | Some decl_type =>
      if String.eqb (rpct_type.name decl_type) "any" then Done true
      else if (g_hash_table_size (rpct_typei.specializations decl) <?
               g_hash_table_size (rpct_typei.specializations type))%nat
      then Done false
      else
        match rpct_typei.type type with
        | None => Crash
        | Some type_type =>
            let compatible :=
              if negb (String.eqb (rpct_type.name decl_type)
                                  (rpct_type.name type_type))
              then parent_chain_has (rpct_type.name type_type) type_type
              else true in
            if negb compatible then Done false else Done compatible
        end
  end.

(** The relation the specification describes: some strict ancestor of
    [type] carries the name [target]. *)
Fixpoint ancestor_named (target : string) (type : rpct_type.t) : Prop :=
  match rpct_type.parent type with
  | None => False
  | Some p => rpct_type.name p = target \/ ancestor_named target p
  end.

(** ** Instantiating types *)

(** A 32-bit [int] after an arithmetic step. *)
Definition int32_wrap (z : Z) : Z := (z + 2 ^ 31) mod 2 ^ 32 - 2 ^ 31.

(** The scan of [rpct_parse_type]: [piece] is [decl[istart .. i)], the text
    since the last top-level comma. *)
Fixpoint rpct_parse_type_from (decl : string) (nesting : Z) (piece : string)
    (variables : list string) : list string :=
  match decl with
  | EmptyString => variables ++ [piece]
  | String c rest =>
      let piece' := piece +:+ String c EmptyString in
      if Ascii.eqb c "<"%char
      then rpct_parse_type_from rest (nesting + 1) piece' variables
      else if Ascii.eqb c ">"%char
      then rpct_parse_type_from rest (nesting - 1) piece' variables
      else if Ascii.eqb c ","%char
      then if nesting =? 0
           then rpct_parse_type_from rest nesting "" (variables ++ [piece])
           else rpct_parse_type_from rest nesting piece' variables
      else rpct_parse_type_from rest nesting piece' variables
  end.

(** [rpct_parse_type (decl, variables)]: the groups it counts and the array
    after the call. *)
Definition rpct_parse_type (decl : string) (variables : list string)
  : Z * list string :=
  let variables' := rpct_parse_type_from decl 0 "" variables in
  (Z.of_nat (length variables' - length variables), variables').

(** Modelled from the spec: [rpc_ptr_array_string_index], a helper that is
    not part of these sources.  A name that is no known type is "a proxy
    variable bound to [ptype]'s generic_vars if present": the position of
    the string in the array, or -1. *)
Fixpoint rpc_ptr_array_string_index_from (i : Z) (array : list string)
    (str : string) : Z :=
  match array with
  | [] => -1
  | x :: rest =>
      if String.eqb x str then i
      else rpc_ptr_array_string_index_from (i + 1) rest str
  end.

(** Modelled from the spec: [rpc_ptr_array_string_index] proper, the search
    from position 0 on. *)
Definition rpc_ptr_array_string_index (array : list string) (str : string) : Z :=
  rpc_ptr_array_string_index_from 0 array str.

(** Field updates of an instance. *)
Definition set_refcnt (n : Z) (ti : rpct_typei.t) : rpct_typei.t :=
  {| rpct_typei.proxy := rpct_typei.proxy ti;
     rpct_typei.type := rpct_typei.type ti;
     rpct_typei.variable := rpct_typei.variable ti;
     rpct_typei.canonical_form := rpct_typei.canonical_form ti;
     rpct_typei.specializations := rpct_typei.specializations ti;
     rpct_typei.parent := rpct_typei.parent ti;
     rpct_typei.refcnt := n |}.

Definition set_canonical_form (s : string) (ti : rpct_typei.t) : rpct_typei.t :=
  {| rpct_typei.proxy := rpct_typei.proxy ti;
     rpct_typei.type := rpct_typei.type ti;
     rpct_typei.variable := rpct_typei.variable ti;
     rpct_typei.canonical_form := Some s;
     rpct_typei.specializations := rpct_typei.specializations ti;
     rpct_typei.parent := rpct_typei.parent ti;
     rpct_typei.refcnt := rpct_typei.refcnt ti |}.

(** [g_hash_table_insert (typei->specializations, var, subtype)]; inserting
    into a [NULL] table is refused by the library. *)
Definition insert_specialization (var : string) (subtype : typei_ptr)
    (ti : rpct_typei.t) : rpct_typei.t :=
  {| rpct_typei.proxy := rpct_typei.proxy ti;
     rpct_typei.type := rpct_typei.type ti;
     rpct_typei.variable := rpct_typei.variable ti;
     rpct_typei.canonical_form := rpct_typei.canonical_form ti;
     rpct_typei.specializations :=
       match rpct_typei.specializations ti with
       | Some m => Some (<[var := subtype]> m)
       | None => None
       end;
     rpct_typei.parent := rpct_typei.parent ti;
     rpct_typei.refcnt := rpct_typei.refcnt ti |}.

(** [rpct_typei_retain (typei)]. *)
Definition rpct_typei_retain (typei : typei_ptr) (w : world)
  : run (typei_ptr * world) :=
  match heap w !! typei with
  | None => Crash
  | Some ti =>
      Done (typei,
            set_heap (<[typei := set_refcnt (int32_wrap (rpct_typei.refcnt ti + 1)) ti]>
                        (heap w)) w)
  end.

Section Instantiate.

Variable rpct_chain_load : string -> world -> world.

(** The order in which [g_hash_table_iter_next] hands out the entries of a
    table.  The library promises every entry once and nothing about the
    order, which follows the hash values of the keys. *)
Variable g_hash_table_iter : gmap string typei_ptr -> list (string * typei_ptr).

(** [g_regex_match (INSTANCE_REGEX, decl)] with the two groups that are
    fetched: group 1, the name, and group 3, the text between the angle
    brackets ([NULL] when the declaration has none).  [INSTANCE_REGEX] is a
    macro of the internal header and not part of these sources; its grammar
    is [<name>(\s*<\s*(<vars>)\s*>)?]. *)
Variable instance_regex : string -> option (string * option string).

(** The body of the [while] loop of [rpct_canonical_type]. *)
Fixpoint rpct_canonical_type_loop (canon : typei_ptr -> run string)
    (table_size : nat) (i : Z) (entries : list (string * typei_ptr))
    (ret : string) : run string :=
  match entries with
  | [] => Done ret
  | (key, value) :: rest =>
      let* substr := canon value in
      let ret := ret +:+ substr in
      let ret := if i <? (Z.of_nat table_size - 1) mod 2 ^ 32
                 then ret +:+ "," else ret in
      rpct_canonical_type_loop canon table_size ((i + 1) mod 2 ^ 32) rest ret
  end.

(** [rpct_canonical_type]; one unit of fuel per level of nesting.  A proxy
    always carries its [variable]. *)
Fixpoint rpct_canonical_type (fuel : nat) (h : gmap typei_ptr rpct_typei.t)
    (typei : typei_ptr) : run string :=
  match fuel with
  | O => Timeout
  | S fuel' =>
      match h !! typei with
      | None => Crash
      | Some ti =>
          if rpct_typei.proxy ti
          then match rpct_typei.variable ti with
               | Some v => Done v
               | None => Crash
               end
          else
            match rpct_typei.type ti with
            | None => Crash
            | Some type =>
                let ret := rpct_type.name type in
                if negb (rpct_type.generic type) then Done ret
                else
                  match rpct_typei.specializations ti with
                  | None => Crash
                  | Some specs =>
                      let* ret :=
                        rpct_canonical_type_loop (rpct_canonical_type fuel' h)
                          (size specs) 0 (g_hash_table_iter specs)
                          (ret +:+ "<") in
                      Done (ret +:+ ">")
                  end
            end
      end
  end.

(** Releasing every value of a table that is being destroyed. *)
Fixpoint release_values (release : typei_ptr -> gmap typei_ptr rpct_typei.t ->
                                   run (gmap typei_ptr rpct_typei.t))
    (values : list typei_ptr) (h : gmap typei_ptr rpct_typei.t)
  : run (gmap typei_ptr rpct_typei.t) :=
  match values with
  | [] => Done h
  | v :: rest =>
      let* h' := release v h in
      release_values release rest h'
  end.

(** [rpct_typei_release]: the last reference destroys the table of
    specializations, releasing each value, and frees the instance. *)
Fixpoint rpct_typei_release (fuel : nat) (typei : typei_ptr)
    (h : gmap typei_ptr rpct_typei.t) : run (gmap typei_ptr rpct_typei.t) :=
  match fuel with
  | O => Timeout
  | S fuel' =>
      match h !! typei with
      | None => Crash
      | Some ti =>
          let n := int32_wrap (rpct_typei.refcnt ti - 1) in
          let h1 := <[typei := set_refcnt n ti]> h in
          if negb (n =? 0) then Done h1
          else
            let* h2 :=
              match rpct_typei.specializations ti with
              | None => Done h1
              | Some specs =>
                  release_values (rpct_typei_release fuel')
                    (map snd (g_hash_table_iter specs)) h1
              end in
            Done (delete typei h2)
      end
  end.

(** The [while (cur != NULL)] loop of [rpct_instantiate_type]: is [decltype]
    a generic variable that an enclosing instance has bound? *)
Fixpoint rpct_find_in_parents (fuel : nat) (h : gmap typei_ptr rpct_typei.t)
    (decltype : string) (cur : option typei_ptr) : run (option typei_ptr) :=
  match cur with
  | None => Done None
  | Some c =>
      match h !! c with
      | None => Crash
      | Some ti =>
          match rpct_typei.type ti with
          | None => Crash
          | Some type =>
              let subtype :=
                if rpct_type.generic type
                then match rpct_typei.specializations ti with
                     | Some m => m !! decltype
                     | None => None
                     end
                else None in
              match subtype with
              | Some s => Done (Some s)
              | None =>
                  match fuel with
                  | O => Timeout
                  | S fuel' =>
                      rpct_find_in_parents fuel' h decltype (rpct_typei.parent ti)
                  end
              end
          end
      end
  end.

(** The [for] loop over the generic variables: each variable of the type is
    paired with the declaration at the same position and the instance of
    that declaration is stored under the variable's name.  The table was
    created with [rpct_typei_release] as the destructor of its values, so
    an insertion under a name that is bound already releases the instance
    it replaces.  The result says whether the loop ran to its end. *)
Fixpoint rpct_instantiate_vars (fuel : nat)
    (instantiate : string -> option typei_ptr -> world ->
                   run (option typei_ptr * world))
    (ret : typei_ptr) (pairs : list (string * string)) (w : world)
  : run (bool * world) :=
  match pairs with
  | [] => Done (true, w)
  | (var, vartype) :: rest =>
      let* (subtype, w1) := instantiate vartype (Some ret) w in
      match subtype with
      | None => Done (false, w1)
      | Some subtype =>
          match heap w1 !! ret with
          | None => Crash
          | Some ti =>
              let* h :=
                match rpct_typei.specializations ti ≫= (fun m => m !! var) with
                | Some old => rpct_typei_release fuel old (heap w1)
                | None => Done (heap w1)
                end in
              match h !! ret with
              | None => Crash
              | Some ti =>
                  rpct_instantiate_vars fuel instantiate ret rest
                    (set_heap (<[ret := insert_specialization var subtype ti]> h) w1)
              end
          end
      end
  end.

(** [rpct_instantiate_type]; one unit of fuel per nested declaration.  The
    result is the pointer returned, [None] for [NULL].  The cache was
    created with [rpct_typei_release] as the destructor of its values: the
    insertion at the end releases the instance that the canonical form was
    mapped to, if there was one. *)
Fixpoint rpct_instantiate_type (fuel : nat) (decl : string)
    (parent : option typei_ptr) (ptype : option rpct_type.t)
    (origin : option rpct_file.t) (w : world)
  : run (option typei_ptr * world) :=
  match fuel with
  | O => Timeout
  | S fuel' =>
      match instance_regex decl with
      | None => Done (None, w)
      | Some (decltype, declvars) =>
          let (type, w) := rpct_find_type_fuzzy rpct_chain_load decltype origin w in
          let cached :=
            match type with
            | Some t =>
                if negb (rpct_type.generic t)
                then rpct_context.typei_cache (context w) !! decltype
                else None
            | None => None
            end in
          match cached with
          | Some ret =>
              let* (ret, w) := rpct_typei_retain ret w in
              Done (Some ret, w)
          | None =>
              match type with
              | None =>
                  let* subtype := rpct_find_in_parents fuel' (heap w) decltype parent in
                  match subtype with
                  | Some subtype => Done (Some subtype, w)
                  | None =>
                      let found_proxy_type :=
                        match ptype with
                        | Some pt =>
                            if rpct_type.generic pt
                            then rpc_ptr_array_string_index
                                   (rpct_type.generic_vars pt) decltype
                            else -1
                        | None => -1
                        end in
                      if negb (found_proxy_type =? -1)
                      then
                        let (subtype, w) :=
                          alloc_typei
                            {| rpct_typei.proxy := true;
                               rpct_typei.type := None;
                               rpct_typei.variable := Some decltype;
                               rpct_typei.canonical_form := Some decltype;
                               rpct_typei.specializations := None;
                               rpct_typei.parent := None;
                               rpct_typei.refcnt := 0 |} w in
                        Done (Some subtype, w)
                      else Done (None, w)
                  end
              | Some type =>
                  let (ret, w) :=
                    alloc_typei
                      {| rpct_typei.proxy := false;
                         rpct_typei.type := Some type;
                         rpct_typei.variable := None;
                         rpct_typei.canonical_form := None;
                         rpct_typei.specializations := Some ∅;
                         rpct_typei.parent := parent;
                         rpct_typei.refcnt := 1 |} w in
                  let* (ok, w) :=
                    if rpct_type.generic type
                    then match declvars with
                         | None => Done (false, w)
                         | Some declvars =>
                             let splitvars := snd (rpct_parse_type declvars []) in
                             if negb (length splitvars =?
                                      length (rpct_type.generic_vars type))%nat
                             then Done (false, w)
                             else rpct_instantiate_vars fuel'
                                    (fun vartype parent w =>
                                       rpct_instantiate_type fuel' vartype parent
                                         ptype origin w)
                                    ret
                                    (zip (rpct_type.generic_vars type) splitvars) w
                         end
                    else Done (true, w) in
                  if ok : bool
                  then
                    let* canonical := rpct_canonical_type fuel (heap w) ret in
                    match heap w !! ret with
                    | None => Crash
                    | Some ti =>
                        let w := set_heap (<[ret := set_canonical_form canonical ti]>
                                             (heap w)) w in
                        if negb (rpct_type.generic type)
                        then
                          let cache := rpct_context.typei_cache (context w) in
                          let* h :=
                            match cache !! canonical with
                            | Some old => rpct_typei_release fuel old (heap w)
                            | None => Done (heap w)
                            end in
                          Done (Some ret,
                                set_typei_cache (<[canonical := ret]> cache)
                                                (set_heap h w))
                        else Done (Some ret, w)
                    end
                  else
                    let* h := rpct_typei_release fuel ret (heap w) in
                    Done (None, set_heap h w)
              end
          end
      end
  end.

End Instantiate.

(** ** Validation *)

(** Codes of [errno.h]. *)
Definition EINVAL : Z := 22.

(** [struct rpct_validation_error] and [struct rpct_error_context].  The
    [errors] array of a context is shared with every context derived from
    it; the validators below hand back its new contents. *)
Module rpct_validation_error.
Record t := Build {
  path : string;
  message : string;
  extra : option rpc_object
}.
End rpct_validation_error.

Module rpct_error_context.
Record t := Build {
  path : string;
  errors : list rpct_validation_error.t
}.
End rpct_error_context.

(** [rpct_add_error (ctx, extra, fmt, ...)], with the formatted message. *)
Definition rpct_add_error (ctx : rpct_error_context.t) (extra : option rpc_object)
    (message : string) : rpct_error_context.t :=
  {| rpct_error_context.path := rpct_error_context.path ctx;
     rpct_error_context.errors :=
       rpct_error_context.errors ctx ++
       [ {| rpct_validation_error.path := rpct_error_context.path ctx;
            rpct_validation_error.message := message;
            rpct_validation_error.extra := extra |} ] |}.

(** [%s] of a C string that may be [NULL]. *)
Definition fmt_s (s : option string) : string :=
  match s with
  | Some x => x
  | None => "(null)"
  end.

(** The message of an incompatibility error. *)
Definition incompatible_message (actual expected : option string) : string :=
  "Incompatible type " +:+ fmt_s actual +:+ ", should be " +:+ fmt_s expected.

(** The outcome of steps 1 and 2 of [rpct_validate_instance]: control either
    reaches the label [step3], or the function records an error and
    returns [false]. *)
Inductive type_check :=
  | GotoStep3
  | Rejected (errctx : rpct_error_context.t).

Section Validate.

(** [rpc_get_type_name] of the object model. *)
Variable rpc_get_type_name : rpc_type_t -> string.

(** [rpc_find_class_handler (NULL, clazz)->validate_fn]: the per-class
    validators, which live with the class handlers.  A validator may add
    errors to the shared array and may instantiate member types. *)
Variable rpc_find_class_handler :
  rpct_class_t ->
  option (typei_ptr -> rpc_object -> rpct_error_context.t -> world ->
          run (bool * rpct_error_context.t * world)).

(** Steps 1 and 2 of [rpct_validate_instance], after the unwinding:
    [typei] is the instance the caller passed, [raw_typei] the unwound
    one. *)
Definition rpct_validate_type_check (typei raw_typei : rpct_typei.t)
    (obj : rpc_object) (errctx : rpct_error_context.t) (w : world)
  : run type_check :=
  match ro_typei obj with
  | None =>
      let canonical_form := rpct_typei.canonical_form raw_typei in
      let type_name := Some (rpc_get_type_name (ro_type obj)) in
      if g_strcmp0_eq canonical_form (Some "any") then Done GotoStep3
      else if g_strcmp0_eq canonical_form (Some "nullptr")
              && rpc_type_is_null (ro_type obj)
      then Done GotoStep3
      else if g_strcmp0_eq type_name canonical_form then Done GotoStep3
      else Done (Rejected (rpct_add_error errctx None
                             (incompatible_message type_name canonical_form)))
  | Some p =>
      match heap w !! p with
      | None => Crash
      | Some obj_typei =>
          let* compatible := rpct_type_is_compatible raw_typei obj_typei in
          if negb compatible
          then Done (Rejected (rpct_add_error errctx None
                                 (incompatible_message
                                    (rpct_typei.canonical_form obj_typei)
                                    (rpct_typei.canonical_form typei))))
          else Done GotoStep3
      end
  end.

(** [rpct_validate_instance (typei, obj, errctx)]. *)
Definition rpct_validate_instance (fuel : nat) (typei : typei_ptr)
    (obj : rpc_object) (errctx : rpct_error_context.t) (w : world)
  : run (bool * rpct_error_context.t * world) :=
  let* raw := rpct_unwind_typei fuel (heap w) (Some typei) in
  match raw with
  | None => Crash
  | Some raw =>
      match heap w !! typei, heap w !! raw with
      | Some typei_v, Some raw_typei =>
          let* check := rpct_validate_type_check typei_v raw_typei obj errctx w in
          match check with
          | Rejected errctx' => Done (false, errctx', w)
          | GotoStep3 =>
              match rpct_typei.type raw_typei with
              | None => Crash
              | Some type =>
                  match rpc_find_class_handler (rpct_type.clazz type) with
                  | None => Crash
                  | Some validate_fn => validate_fn raw obj errctx w
                  end
              end
          end
      | _, _ => Crash
      end
  end.

(** Modelled from the spec: the constructor [rpc_string_create] of the
    object model, which is not part of these sources; "constructors: one
    per kind". *)
Definition rpc_string_create (s : string) : rpc_object :=
  {| ro_type := RPC_TYPE_STRING; ro_typei := None; ro_value := rv_str s |}.

(** Modelled from the spec: [rpc_null_create], the constructor of the null
    object. *)
Definition rpc_null_create : rpc_object :=
  {| ro_type := RPC_TYPE_NULL; ro_typei := None; ro_value := rv_none |}.

(** Modelled from the spec: [rpc_object_pack ("{s,s,v}", "path", ...,
    "message", ..., "extra", ...)] of the object model, which is not part
    of these sources: "validation errors are aggregated into an array",
    one dictionary with the error's path, message and extra per error. *)
Definition rpct_pack_error (err : rpct_validation_error.t) : rpc_object :=
  {| ro_type := RPC_TYPE_DICTIONARY; ro_typei := None;
     ro_value :=
       rv_dict [ ("path", rpc_string_create (rpct_validation_error.path err));
                 ("message", rpc_string_create (rpct_validation_error.message err));
                 ("extra", match rpct_validation_error.extra err with
                           | Some o => o
                           | None => rpc_null_create
                           end) ] |}.

(** The array that [rpct_validate_args] and [rpct_validate] build in
    [*errors]: one packed dictionary per recorded error, in order. *)
Definition rpct_errors_array (errors : list rpct_validation_error.t) : rpc_object :=
  {| ro_type := RPC_TYPE_ARRAY; ro_typei := None;
     ro_value := rv_list (map rpct_pack_error errors) |}.

(** The block [rpct_validate_args] hands to [rpc_array_apply]; it captures
    [errctx] and [valid] by reference. *)
Definition rpct_validate_args_block (fuel : nat)
    (arguments : list rpct_argument.t) (idx : nat) (i : rpc_object)
    (st : rpct_error_context.t * bool * world)
  : run (bool * (rpct_error_context.t * bool * world)) :=
  let '(errctx, valid, w) := st in
  if (length arguments <=? idx)%nat then Done (false, st)
  else
    match arguments !! idx with
    | None => Crash
    | Some arg =>
        let* (r, w') := rpct_validate_instance fuel (rpct_argument.type arg) i errctx w in
        let (ok, errctx') := r : bool * rpct_error_context.t in
        Done (true, (errctx', if negb ok then false else valid, w'))
    end.

(** [rpct_validate_args (func, args, errors)].  [want_errors] says whether
    the caller passed a non-[NULL] [errors]; the second component of the
    result is what [*errors] was set to, if it was set. *)
Definition rpct_validate_args (fuel : nat) (func : rpct_if_member.t)
    (args : rpc_object) (want_errors : bool) (w : world)
  : run (bool * option rpc_object * world) :=
  match rpct_if_member.arguments func with
  | None => Done (true, None, w)
  | Some arguments =>
      let errctx := {| rpct_error_context.path := "";
                       rpct_error_context.errors := [] |} in
      let* (_, st) := rpc_array_apply args
                         (rpct_validate_args_block fuel arguments)
                         (errctx, true, w) in
      let '(errctx, valid, w) := st in
      Done (valid,
            if want_errors
            then Some (rpct_errors_array (rpct_error_context.errors errctx))
            else None,
            w)
  end.



(** [rpct_find_if_member (interface, member)]. *)
Definition rpct_find_if_member (interface member : string) (w : world)
  : option rpct_if_member.t :=
  match rpct_context.interfaces (context w) !! interface with
  | None => None
  | Some iface => rpct_interface.members iface !! member
  end.

End Validate.

(** ** The pre-call and post-call hooks *)

(** The frames a connection sends for one inbound call. *)
Inductive frame :=
  | frame_response (result : rpc_object)
  | frame_fragment (seqno : Z) (value : rpc_object)
  | frame_end (seqno : Z)
  | frame_error (error : rpc_object).

(** [struct rpc_inbound_call], with the frames its connection has sent for
    it so far. *)
Record rpc_inbound_call := Build_rpc_inbound_call {
  ric_interface : string;
  ric_name : string;
  ric_args : rpc_object;
  ric_responded : bool;
  ric_sent : list frame
}.

(** Modelled from the spec: [rpc_error_create] of the object model, which is
    not part of these sources.  "An error object carries {code, message,
    extra}". *)
Definition rpc_error_create (code : Z) (msg : string) (extra : option rpc_object)
  : rpc_object :=
  {| ro_type := RPC_TYPE_ERROR; ro_typei := None;
     ro_value := rv_error code msg extra |}.

(** Modelled from the spec: [rpc_array_get_count], the [len] of an array
    object. *)
Definition rpc_array_get_count (array : rpc_object) : Z :=
  Z.of_nat (length (rpc_array_items array)).

(** Modelled from the spec: [rpc_function_error_ex] of the call engine,
    which is not part of these sources.  "Exceptions/errors send [error]; single-return paths send
    [response]"; "responding twice: the second response is dropped". *)
Definition rpc_function_error_ex (call : rpc_inbound_call) (error : rpc_object)
  : rpc_inbound_call :=
  if ric_responded call then call
  else {| ric_interface := ric_interface call; ric_name := ric_name call;
          ric_args := ric_args call; ric_responded := true;
          ric_sent := ric_sent call ++ [frame_error error] |}.



Section Hooks.

Variable rpc_get_type_name : rpc_type_t -> string.
Variable rpc_find_class_handler :
  rpct_class_t ->
  option (typei_ptr -> rpc_object -> rpct_error_context.t -> world ->
          run (bool * rpct_error_context.t * world)).

(** [rpct_pre_call_hook (cookie, args)]: the inbound call after the hook. *)
Definition rpct_pre_call_hook (fuel : nat) (ic : rpc_inbound_call)
    (args : rpc_object) (w : world) : run (rpc_inbound_call * world) :=
  match rpct_find_if_member (ric_interface ic) (ric_name ic) w with
  | None => Done (ic, w)
  | Some member =>
      let* (r, w') := rpct_validate_args rpc_get_type_name rpc_find_class_handler
                        fuel member args true w in
      let (valid, errors) := r : bool * option rpc_object in
      if negb valid
      then
        match errors with
        | None => Crash
        | Some errors =>
            let msg := "Validation failed: " +:+ pretty (rpc_array_get_count errors)
                       +:+ " errors" in
            Done (rpc_function_error_ex ic
                    (rpc_error_create EINVAL msg (Some errors)), w')
        end
      else Done (ic, w')
  end.



End Hooks.

(** ** Servers *)

Definition rpc_server_t := nat.

(** [struct rpc_connection], by its address and whether its transport set
    an [rco_abort] callback. *)
Record rpc_connection := Build_rpc_connection {
  rco_addr : nat;
  rco_abort : bool
}.

(** [struct rpc_dispatch_item] for a connection event. *)
Inductive rpc_server_event_t :=
  | RPC_CONNECTION_ARRIVED
  | RPC_CONNECTION_TERMINATED.

Record rpc_dispatch_item := Build_rpc_dispatch_item {
  rd_conn : rpc_connection;
  rd_code : rpc_server_event_t;
  rd_args : rpc_server_t
}.

(** [struct rpc_server].  The teardown hook of the transport is given by
    the status it returns; it acts on the transport's listener, not on the
    fields below. *)
Record rpc_server := Build_rpc_server {
  rs_uri : string;
  rs_closed : bool;
  rs_connections : list rpc_connection;
  rs_teardown : option Z
}.

(** The context a server is attached to ([rcx_servers] and the items handed
    to its worker pool), the servers by address, and the connections whose
    [rco_abort] was called. *)
Record server_world := Build_server_world {
  rcx_servers : list rpc_server_t;
  rcx_dispatched : list rpc_dispatch_item;
  servers : gmap rpc_server_t rpc_server;
  aborted : list nat
}.

Definition set_server (server : rpc_server_t) (s : rpc_server) (sw : server_world)
  : server_world :=
  {| rcx_servers := rcx_servers sw; rcx_dispatched := rcx_dispatched sw;
     servers := <[server := s]> (servers sw); aborted := aborted sw |}.

(** Modelled from the spec: [rpc_context_dispatch], which is not part of
    these sources: "enqueue on threadpool". *)
Definition rpc_context_dispatch (itm : rpc_dispatch_item) (sw : server_world)
  : server_world :=
  {| rcx_servers := rcx_servers sw;
     rcx_dispatched := rcx_dispatched sw ++ [itm];
     servers := servers sw; aborted := aborted sw |}.

(** [rpc_server_accept (server, conn)]: the status returned and the state
    after the call. *)
Definition rpc_server_accept (server : rpc_server_t) (conn : rpc_connection)
    (sw : server_world) : run (Z * server_world) :=
  match servers sw !! server with
  | None => Crash
  | Some s =>
      if rs_closed s then Done (-1, sw)
      else
        let s' := {| rs_uri := rs_uri s; rs_closed := rs_closed s;
                     rs_connections := rs_connections s ++ [conn];
                     rs_teardown := rs_teardown s |} in
        let itm := {| rd_conn := conn; rd_code := RPC_CONNECTION_ARRIVED;
                      rd_args := server |} in
        Done (0, rpc_context_dispatch itm (set_server server s' sw))
  end.

(** [g_list_remove_link] on the first element whose address is [conn]'s:
    the list without it, or [None] when there is none. *)
Fixpoint remove_link (conn : rpc_connection) (l : list rpc_connection)
  : option (list rpc_connection) :=
  match l with
  | [] => None
  | comp :: rest =>
      if (rco_addr comp =? rco_addr conn)%nat then Some rest
      else match remove_link conn rest with
           | Some rest' => Some (comp :: rest')
           | None => None
           end
  end.

(** [rpc_server_remove_connection (server, conn)]. *)
Definition rpc_server_remove_connection (server : rpc_server_t)
    (conn : rpc_connection) (sw : server_world) : run (Z * server_world) :=
  match servers sw !! server with
  | None => Crash
  | Some s =>
      match remove_link conn (rs_connections s) with
      | None => Done (-1, sw)
      | Some rest =>
          Done (0, set_server server
                     {| rs_uri := rs_uri s; rs_closed := rs_closed s;
                        rs_connections := rest;
                        rs_teardown := rs_teardown s |} sw)
      end
  end.

(** [g_ptr_array_remove]: drops the first occurrence, and says whether
    there was one. *)
Fixpoint g_ptr_array_remove (array : list rpc_server_t) (data : rpc_server_t)
  : bool * list rpc_server_t :=
  match array with
  | [] => (false, [])
  | x :: rest =>
      if (x =? data)%nat then (true, rest)
      else let (present, rest') := g_ptr_array_remove rest data in
           (present, x :: rest')
  end.

(** What another thread does to the server while [rpc_server_close] sleeps
    in [g_cond_wait]. *)
Inductive server_action :=
  | ActAccept (conn : rpc_connection)
  | ActRemove (conn : rpc_connection).

(** One such action, run to its end. *)
Definition server_step (server : rpc_server_t) (a : server_action)
    (sw : server_world) : run (Z * server_world) :=
  match a with
  | ActAccept conn => rpc_server_accept server conn sw
  | ActRemove conn => rpc_server_remove_connection server conn sw
  end.

(** A run of actions on one server: the status each returned, and the
    state at the end. *)
Fixpoint server_steps (server : rpc_server_t) (actions : list server_action)
    (sw : server_world) : run (list (server_action * Z) * server_world) :=
  match actions with
  | [] => Done ([], sw)
  | a :: rest =>
      let* (ret, sw1) := server_step server a sw in
      let* (rets, sw2) := server_steps server rest sw1 in
      Done ((a, ret) :: rets, sw2)
  end.

(** How a call of [rpc_server_close] ends: it returns a status, or it is
    still waiting for the connections to drain when the schedule of the
    other threads is used up. *)
Inductive close_result :=
  | CloseReturned (ret : Z) (sw : server_world)
  | CloseWaiting (sw : server_world).

Definition close_world (r : close_result) : server_world :=
  match r with
  | CloseReturned _ sw => sw
  | CloseWaiting sw => sw
  end.

(** [while (server->rs_connections != NULL) g_cond_wait (...)]: every wake-up
    follows an action of another thread. *)
Fixpoint rpc_server_close_wait (server : rpc_server_t) (ret : Z)
    (schedule : list server_action) (sw : server_world) : run close_result :=
  match servers sw !! server with
  | None => Crash
  | Some s =>
      match rs_connections s with
      | [] => Done (CloseReturned ret sw)
      | _ :: _ =>
          match schedule with
          | [] => Done (CloseWaiting sw)
          | a :: rest =>
              let* (_, sw') := server_step server a sw in
              rpc_server_close_wait server ret rest sw'
          end
      end
  end.

(** [rpc_server_close].  The array it removes the server from is the
    server list of the context the server is attached to. *)
Definition rpc_server_close (server : rpc_server_t)
    (schedule : list server_action) (sw : server_world) : run close_result :=
  let (present, rest) := g_ptr_array_remove (rcx_servers sw) server in
  if negb present then Done (CloseReturned (-1) sw)
  else
    let sw := {| rcx_servers := rest; rcx_dispatched := rcx_dispatched sw;
                 servers := servers sw; aborted := aborted sw |} in
    match servers sw !! server with
    | None => Crash
    | Some s =>
        let s := {| rs_uri := rs_uri s; rs_closed := true;
                    rs_connections := rs_connections s;
                    rs_teardown := rs_teardown s |} in
        let sw := set_server server s sw in
        let ret := match rs_teardown s with
                   | Some status => status
                   | None => 0
                   end in
        match rs_connections s with
        | [] => Done (CloseReturned ret sw)
        | _ :: _ =>
            let sw := {| rcx_servers := rcx_servers sw;
                         rcx_dispatched := rcx_dispatched sw;
                         servers := servers sw;
                         aborted := aborted sw ++
                                    map rco_addr (filter (fun c => rco_abort c = true)
                                                         (rs_connections s)) |} in
            rpc_server_close_wait server ret schedule sw
        end
    end.

(** The server at [server] has its [rs_closed] flag set. *)
Definition closed_at (server : rpc_server_t) (sw : server_world) : Prop :=
  exists s, servers sw !! server = Some s /\ rs_closed s = true.

Definition server_connections (server : rpc_server_t) (sw : server_world)
  : list rpc_connection :=
  match servers sw !! server with
  | Some s => rs_connections s
  | None => []
  end.

(** The strings of a list, separated by commas. *)
Fixpoint comma_join (l : list string) : string :=
  match l with
  | [] => ""
  | [x] => x
  | x :: rest => x +:+ "," +:+ comma_join rest
  end.

(** ** Chains of typedefs *)

(** One [continue] of the unwinding loop: [p] is an instance of a typedef
    whose definition is [q]. *)
Definition typedef_step (h : gmap typei_ptr rpct_typei.t) (p q : typei_ptr)
  : Prop :=
  exists ti type,
    h !! p = Some ti /\ rpct_typei.type ti = Some type /\
    rpct_type.clazz type = RPC_TYPING_TYPEDEF /\
    rpct_type.definition type = Some q.


Definition non_typedef_instance (h : gmap typei_ptr rpct_typei.t)
    (r : typei_ptr) : Prop :=
  exists ti type,
    h !! r = Some ti /\ rpct_typei.type ti = Some type /\
    rpct_type.clazz type <> RPC_TYPING_TYPEDEF.

(** ** Sample inputs *)

Definition builtin_type (name : string) : rpct_type.t :=
  {| rpct_type.name := name; rpct_type.clazz := RPC_TYPING_BUILTIN;
     rpct_type.generic := false; rpct_type.generic_vars := [];
     rpct_type.parent := None; rpct_type.definition := None;
     rpct_type.file := None |}.

(** [struct Pair<A,B>] of the IDL. *)
Definition pair_type : rpct_type.t :=
  {| rpct_type.name := "Pair"; rpct_type.clazz := RPC_TYPING_STRUCT;
     rpct_type.generic := true; rpct_type.generic_vars := ["A"; "B"];
     rpct_type.parent := None; rpct_type.definition := None;
     rpct_type.file := None |}.

(** [struct Base] and [struct Derived<T>], which inherits [Base]. *)
Definition base_type : rpct_type.t :=
  {| rpct_type.name := "Base"; rpct_type.clazz := RPC_TYPING_STRUCT;
     rpct_type.generic := false; rpct_type.generic_vars := [];
     rpct_type.parent := None; rpct_type.definition := None;
     rpct_type.file := None |}.

Definition derived_type : rpct_type.t :=
  {| rpct_type.name := "Derived"; rpct_type.clazz := RPC_TYPING_STRUCT;
     rpct_type.generic := true; rpct_type.generic_vars := ["T"];
     rpct_type.parent := Some base_type; rpct_type.definition := None;
     rpct_type.file := None |}.

(** An instance of a type with the given specializations. *)
Definition instance_of (type : rpct_type.t) (canonical_form : string)
    (specializations : gmap string typei_ptr) : rpct_typei.t :=
  {| rpct_typei.proxy := false; rpct_typei.type := Some type;
     rpct_typei.variable := None;
     rpct_typei.canonical_form := Some canonical_form;
     rpct_typei.specializations := Some specializations;
     rpct_typei.parent := None; rpct_typei.refcnt := 1 |}.

(** [method add (a: int64, b: int64)], with the instance of [int64] at
    address 0. *)
Definition add_method : rpct_if_member.t :=
  {| rpct_if_member.rim_name := "add";
     rpct_if_member.description := None;
     rpct_if_member.arguments :=
       Some [ {| rpct_argument.name := "a"; rpct_argument.description := None;
                 rpct_argument.type := 0%nat |};
              {| rpct_argument.name := "b"; rpct_argument.description := None;
                 rpct_argument.type := 0%nat |} ];
     rpct_if_member.result := Some 0%nat |}.

(** No file declares anything that is not loaded yet. *)
Definition no_chain_load (name : string) (w : world) : world := w.

(** [Base], and [Derived<int64>] with its variable [T] bound to the
    instance at address 0. *)
Definition base_instance : rpct_typei.t := instance_of base_type "Base" ∅.


(** [struct Child], a non-generic type that inherits [Base]. *)
Definition child_type : rpct_type.t :=
  {| rpct_type.name := "Child"; rpct_type.clazz := RPC_TYPING_STRUCT;
     rpct_type.generic := false; rpct_type.generic_vars := [];
     rpct_type.parent := Some base_type; rpct_type.definition := None;
     rpct_type.file := None |}.

Definition child_instance : rpct_typei.t := instance_of child_type "Child" ∅.

(** [typedef IntAlias = int64] and [typedef AliasAlias = IntAlias], with
    the instances of [int64], [IntAlias] and [AliasAlias] at the addresses
    0, 1 and 2. *)
Definition int_alias_type : rpct_type.t :=
  {| rpct_type.name := "IntAlias"; rpct_type.clazz := RPC_TYPING_TYPEDEF;
     rpct_type.generic := false; rpct_type.generic_vars := [];
     rpct_type.parent := None; rpct_type.definition := Some 0%nat;
     rpct_type.file := None |}.

Definition alias_alias_type : rpct_type.t :=
  {| rpct_type.name := "AliasAlias"; rpct_type.clazz := RPC_TYPING_TYPEDEF;
     rpct_type.generic := false; rpct_type.generic_vars := [];
     rpct_type.parent := None; rpct_type.definition := Some 1%nat;
     rpct_type.file := None |}.

Definition typedef_heap : gmap typei_ptr rpct_typei.t :=
  {[ 0%nat := instance_of (builtin_type "int64") "int64" ∅;
     1%nat := instance_of int_alias_type "IntAlias" ∅;
     2%nat := instance_of alias_alias_type "AliasAlias" ∅ ]}.

(** The names of the object kinds, and class handlers that accept every
    value. *)
Definition sample_type_name (t : rpc_type_t) : string :=
  match t with
  | RPC_TYPE_NULL => "null"
  | RPC_TYPE_BOOL => "bool"
  | RPC_TYPE_UINT64 => "uint64"
  | RPC_TYPE_INT64 => "int64"
  | RPC_TYPE_DOUBLE => "double"
  | RPC_TYPE_DATE => "date"
  | RPC_TYPE_STRING => "string"
  | RPC_TYPE_BINARY => "binary"
  | RPC_TYPE_FD => "fd"
  | RPC_TYPE_DICTIONARY => "dictionary"
  | RPC_TYPE_ARRAY => "array"
  | RPC_TYPE_ERROR => "error"
  end.

Definition accept_all_handler (clazz : rpct_class_t)
  : option (typei_ptr -> rpc_object -> rpct_error_context.t -> world ->
            run (bool * rpct_error_context.t * world)) :=
  Some (fun _ _ errctx w => Done (true, errctx, w)).

Definition rpc_int64_create (i : Z) : rpc_object :=
  {| ro_type := RPC_TYPE_INT64; ro_typei := None; ro_value := rv_i i |}.

Definition rpc_array_of (items : list rpc_object) : rpc_object :=
  {| ro_type := RPC_TYPE_ARRAY; ro_typei := None; ro_value := rv_list items |}.

(** A world whose heap is [typedef_heap] and which declares the interface
    [com.ex.Calc] with the method [add (a: int64, b: int64)]. *)
Definition calc_world : world :=
  {| context :=
       {| rpct_context.types := {[ "int64" := builtin_type "int64" ]};
          rpct_context.interfaces :=
            {[ "com.ex.Calc" :=
                 {| rpct_interface.name := "com.ex.Calc";
                    rpct_interface.members := {[ "add" := add_method ]} |} ]};
          rpct_context.typei_cache := {[ "int64" := 0%nat ]} |};
     heap := typedef_heap;
     brk := 3%nat |}.

Definition empty_errctx : rpct_error_context.t :=
  {| rpct_error_context.path := ""; rpct_error_context.errors := [] |}.

(** The inbound call [com.ex.Calc.add ("x", 3)]. *)
Definition add_call : rpc_inbound_call :=
  {| ric_interface := "com.ex.Calc"; ric_name := "add";
     ric_args := rpc_array_of [rpc_string_create "x"; rpc_int64_create 3];
     ric_responded := false; ric_sent := [] |}.


(** A context with the servers 7 and 9; server 7 is open and has the
    connection at address 41. *)
Definition conn41 : rpc_connection := {| rco_addr := 41; rco_abort := true |}.
Definition conn42 : rpc_connection := {| rco_addr := 42; rco_abort := true |}.

Definition two_servers : server_world :=
  {| rcx_servers := [7%nat; 9%nat];
     rcx_dispatched := [];
     servers :=
       {[ 7%nat := {| rs_uri := "unix:///tmp/a"; rs_closed := false;
                      rs_connections := [conn41]; rs_teardown := Some 0 |};
          9%nat := {| rs_uri := "unix:///tmp/b"; rs_closed := false;
                      rs_connections := []; rs_teardown := None |} ]};
     aborted := [] |}.

(** A lexer for the grammar of type instances, for the examples: the name
    is the leading run of word characters and dots, the variables are the
    text between the "<" that follows it and the last ">". *)
Definition is_name_char (c : ascii) : bool :=
  let n := nat_of_ascii c in
  ((48 <=? n) && (n <=? 57) || (65 <=? n) && (n <=? 90)
   || (97 <=? n) && (n <=? 122) || (n =? 95) || (n =? 46))%nat.

Fixpoint span_name (s : string) : string * string :=
  match s with
  | EmptyString => ("", "")
  | String c rest =>
      if is_name_char c
      then let (name, tail) := span_name rest in (String c name, tail)
      else ("", s)
  end.

Fixpoint drop_spaces (s : string) : string :=
  match s with
  | String c rest => if Ascii.eqb c " "%char then drop_spaces rest else s
  | EmptyString => s
  end.

Fixpoint upto_last_gt (s : string) : option string :=
  match s with
  | EmptyString => None
  | String c rest =>
      match upto_last_gt rest with
      | Some t => Some (String c t)
      | None => if Ascii.eqb c ">"%char then Some "" else None
      end
  end.

Definition sample_instance_regex (decl : string) : option (string * option string) :=
  let (name, tail) := span_name decl in
  if String.eqb name "" then None
  else
    match drop_spaces tail with
    | String c inner =>
        if Ascii.eqb c "<"%char
        then Some (name, upto_last_gt inner)
        else Some (name, None)
    | EmptyString => Some (name, None)
    end.

(** An iteration order by hash bucket: the entries of a table ordered by
    the hash of their key ([g_str_hash], which is [h * 33 + c] from 5381 on
    32 bits) modulo 7, the way a table of eight slots lays out keys that do
    not collide. *)
Definition g_str_hash (s : string) : Z :=
  fold_left (fun h c => (h * 33 + Z.of_nat (nat_of_ascii c)) mod 2 ^ 32)
            (list_ascii_of_string s) 5381.

Definition bucket_of (key : string) : Z := g_str_hash key mod 7.

Fixpoint insert_by_bucket (e : string * typei_ptr) (l : list (string * typei_ptr))
  : list (string * typei_ptr) :=
  match l with
  | [] => [e]
  | x :: rest =>
      if bucket_of (fst e) <=? bucket_of (fst x) then e :: l
      else x :: insert_by_bucket e rest
  end.

Definition bucket_order (m : gmap string typei_ptr) : list (string * typei_ptr) :=
  foldr insert_by_bucket [] (map_to_list m).

(** [struct HashMap<K,V>]. *)
Definition hashmap_type : rpct_type.t :=
  {| rpct_type.name := "HashMap"; rpct_type.clazz := RPC_TYPING_STRUCT;
     rpct_type.generic := true; rpct_type.generic_vars := ["K"; "V"];
     rpct_type.parent := None; rpct_type.definition := None;
     rpct_type.file := None |}.

(** The type table after [rpct_init] and the load of a file that declares
    [struct Pair<A,B>] and [struct HashMap<K,V>]; nothing is instantiated
    yet. *)
Definition fresh_world : world :=
  {| context :=
       {| rpct_context.types :=
            {[ "int64" := builtin_type "int64";
               "string" := builtin_type "string";
               "double" := builtin_type "double";
               "Pair" := pair_type;
               "HashMap" := hashmap_type ]};
          rpct_context.interfaces := ∅;
          rpct_context.typei_cache := ∅ |};
     heap := ∅;
     brk := 0%nat |}.

(** A file with the namespace [com.ex] that declares [struct Point], and
    the type table after its load. *)
Definition point_file : rpct_file.t :=
  {| rpct_file.path := "/usr/local/share/idl/point.yaml";
     rpct_file.ns := Some "com.ex"; rpct_file.uses := [] |}.

Definition point_type : rpct_type.t :=
  {| rpct_type.name := "com.ex.Point"; rpct_type.clazz := RPC_TYPING_STRUCT;
     rpct_type.generic := false; rpct_type.generic_vars := [];
     rpct_type.parent := None; rpct_type.definition := None;
     rpct_type.file := Some point_file |}.

Definition point_world : world :=
  {| context :=
       {| rpct_context.types := {[ "com.ex.Point" := point_type ]};
          rpct_context.interfaces := ∅;
          rpct_context.typei_cache := ∅ |};
     heap := ∅;
     brk := 0%nat |}.

(** ** Further operations of the typing layer *)

(** The nesting depth after a scan of [s] that starts at depth [n], when
    the scan meets no comma at depth 0; [None] when it meets one.  This is
    the bookkeeping of [rpct_parse_type] read as a predicate on a piece of
    text. *)
Fixpoint nesting_after (s : string) (n : Z) : option Z :=
  match s with
  | EmptyString => Some n
  | String c rest =>
      if Ascii.eqb c "<"%char then nesting_after rest (n + 1)
      else if Ascii.eqb c ">"%char then nesting_after rest (n - 1)
      else if Ascii.eqb c ","%char
      then if n =? 0 then None else nesting_after rest n
      else nesting_after rest n
  end.

(** A piece of a declaration that brings the depth back to 0 and has its
    commas inside brackets only, such as [HashMap<string,List<int64>>]. *)
Definition closed_piece (s : string) : Prop := nesting_after s 0 = Some 0.

(** [struct rpct_member]: a struct member or a union branch; the [type] of
    an enum tag is [NULL]. *)
Module rpct_member.
Record t := Build {
  name : string;
  description : option string;
  type : option typei_ptr
}.
End rpct_member.

(** Modelled from the spec: [rpc_copy] of the object model, which is not
    part of these sources; it "returns a semantically equal fresh Object".
    Objects are values here, so the copy is the object. *)
Definition rpc_copy (object : rpc_object) : rpc_object := object.

(** [rpct_newi (typei, object)]: a copy of the object annotated with the
    unwound instance, which is retained.  [None] stands for a [NULL]
    argument or result. *)
Definition rpct_newi (fuel : nat) (typei : option typei_ptr)
    (object : option rpc_object) (w : world)
  : run (option rpc_object * world) :=
  match object with
  | None => Done (None, w)
  | Some object =>
      let object := rpc_copy object in
      let* raw := rpct_unwind_typei fuel (heap w) typei in
      match raw with
      | None => Crash
      | Some raw =>
          let* (raw, w) := rpct_typei_retain raw w in
          Done (Some {| ro_type := ro_type object; ro_typei := Some raw;
                        ro_value := ro_value object |}, w)
      end
  end.

(** [rpct_get_typei (instance)]. *)
Definition rpct_get_typei (instance : option rpc_object) : option typei_ptr :=
  match instance with
  | None => None
  | Some instance => ro_typei instance
  end.

Section Members.

Variable rpct_chain_load : string -> world -> world.
Variable g_hash_table_iter : gmap string typei_ptr -> list (string * typei_ptr).
Variable instance_regex : string -> option (string * option string).

(** [rpct_new_typei (decl)]. *)
Definition rpct_new_typei (fuel : nat) (decl : string) (w : world)
  : run (option typei_ptr * world) :=
  rpct_instantiate_type rpct_chain_load g_hash_table_iter instance_regex
    fuel decl None None None w.

(** [rpct_new (decl, object)]. *)
Definition rpct_new (fuel : nat) (decl : string) (object : option rpc_object)
    (w : world) : run (option rpc_object * world) :=
  let* (typei, w) :=
    rpct_instantiate_type rpct_chain_load g_hash_table_iter instance_regex
      fuel decl None None None w in
  match typei with
  | None => Done (None, w)
  | Some typei => rpct_newi fuel (Some typei) object w
  end.

(** [rpct_instantiate_member (member, parent)]: the declared type of the
    member, instantiated again in the scope of the instance [parent].  The
    function dereferences [member->type], [parent->type] and the instance
    it gets back without a test. *)
Definition rpct_instantiate_member (fuel : nat) (member : rpct_member.t)
    (parent : typei_ptr) (w : world) : run (typei_ptr * world) :=
  match rpct_member.type member with
  | None => Crash
  | Some member_type =>
      match heap w !! member_type, heap w !! parent with
      | Some member_typei, Some parent_typei =>
          match rpct_typei.canonical_form member_typei,
                rpct_typei.type parent_typei with
          | Some decl, Some ptype =>
              let* (ret, w) :=
                rpct_instantiate_type rpct_chain_load g_hash_table_iter
                  instance_regex fuel decl (Some parent) (Some ptype)
                  (rpct_type.file ptype) w in
              match ret with
              | None => Crash
              | Some ret => Done (ret, w)
              end
          | _, _ => Crash
          end
      | _, _ => Crash
      end
  end.

(** [rpct_typei_get_member_type (typei, member)]. *)
Definition rpct_typei_get_member_type (fuel : nat) (typei : typei_ptr)
    (member : rpct_member.t) (w : world) : run (typei_ptr * world) :=
  rpct_instantiate_member fuel member typei w.

End Members.

(** Two heaps hold instances of the same types at the same addresses. *)
Definition same_types (h h' : gmap typei_ptr rpct_typei.t) : Prop :=
  forall q, rpct_typei.type <$> (h !! q) = rpct_typei.type <$> (h' !! q).

(** The proxy that [rpct_instantiate_type] allocates for a generic
    variable. *)
Definition proxy_typei (variable : string) : rpct_typei.t :=
  {| rpct_typei.proxy := true;
     rpct_typei.type := None;
     rpct_typei.variable := Some variable;
     rpct_typei.canonical_form := Some variable;
     rpct_typei.specializations := None;
     rpct_typei.parent := None;
     rpct_typei.refcnt := 0 |}.

(** The heap after the instantiation of "Pair<int64,string>": the instance of
    [Pair] at address 0, those of [int64] and [string] at 1 and 2, and at 3
    the proxy for the variable [A], the declared type of the member [a] of
    [Pair]. *)
Definition pair_heap : gmap typei_ptr rpct_typei.t :=
  {[ 0%nat := instance_of pair_type "Pair<string,int64>"
                {[ "A" := 1%nat; "B" := 2%nat ]};
     1%nat := instance_of (builtin_type "int64") "int64" ∅;
     2%nat := instance_of (builtin_type "string") "string" ∅;
     3%nat := proxy_typei "A" ]}.

Definition pair_world : world :=
  {| context := context fresh_world; heap := pair_heap; brk := 4%nat |}.


(** ** Further operations of validation *)

Section MoreValidate.

Variable rpc_get_type_name : rpc_type_t -> string.
Variable rpc_find_class_handler :
  rpct_class_t ->
  option (typei_ptr -> rpc_object -> rpct_error_context.t -> world ->
          run (bool * rpct_error_context.t * world)).

(** [rpc_find_validator (typename, key)->validate]: the validators of the
    constraints, which are registered outside these sources.  A validator
    gets the object, the value of the constraint, the instance and the
    error context, and may add errors. *)
Variable rpc_find_validator :
  string -> string ->
  option (rpc_object -> rpc_object -> typei_ptr -> rpct_error_context.t ->
          bool * rpct_error_context.t).

(** The order in which the table of constraints is iterated. *)
Variable constraints_iter : gmap string rpc_object -> list (string * rpc_object).

(** The arguments of a call validated one after the other, each against
    the declared argument at the same position: the errors accumulate and
    the verdict is the conjunction of the verdicts. *)
Fixpoint validate_all (fuel : nat) (pairs : list (rpct_argument.t * rpc_object))
    (st : rpct_error_context.t * bool * world)
  : run (rpct_error_context.t * bool * world) :=
  match pairs with
  | [] => Done st
  | (arg, obj) :: rest =>
      let '(errctx, valid, w) := st in
      let* (r, w') := rpct_validate_instance rpc_get_type_name rpc_find_class_handler
                        fuel (rpct_argument.type arg) obj errctx w in
      let (ok, errctx') := r : bool * rpct_error_context.t in
      validate_all fuel rest (errctx', valid && ok, w')
  end.

(** The [while] loop of [rpct_run_validators]. *)
Fixpoint rpct_run_validators_loop (typename : string) (typei : typei_ptr)
    (obj : rpc_object) (entries : list (string * rpc_object))
    (errctx : rpct_error_context.t) (valid : bool)
  : bool * rpct_error_context.t :=
  match entries with
  | [] => (valid, errctx)
  | (key, value) :: rest =>
      match rpc_find_validator typename key with
      | None =>
          rpct_run_validators_loop typename typei obj rest
            (rpct_add_error errctx None ("Validator " +:+ key +:+ " not found"))
            false
      | Some validate =>
          let (ok, errctx') := validate obj value typei errctx in
          rpct_run_validators_loop typename typei obj rest errctx'
            (if negb ok then false else valid)
      end
  end.

(** [rpct_run_validators (typei, obj, errctx)], with the table
    [typei->constraints] given beside the pointer. *)
Definition rpct_run_validators (typei : typei_ptr)
    (constraints : gmap string rpc_object) (obj : rpc_object)
    (errctx : rpct_error_context.t) : bool * rpct_error_context.t :=
  rpct_run_validators_loop (rpc_get_type_name (ro_type obj)) typei obj
    (constraints_iter constraints) errctx true.

(** What a constraint comes to for an object: its validator exists and
    accepts. *)
Definition constraint_accepted (typei : typei_ptr) (obj : rpc_object)
    (errctx : rpct_error_context.t) (entry : string * rpc_object) : bool :=
  match rpc_find_validator (rpc_get_type_name (ro_type obj)) (fst entry) with
  | Some validate => fst (validate obj (snd entry) typei errctx)
  | None => false
  end.

End MoreValidate.

(** Validators for the examples: [min] accepts an integer that is not below
    the value of the constraint and records an error otherwise. *)
Definition sample_find_validator (typename key : string)
  : option (rpc_object -> rpc_object -> typei_ptr -> rpct_error_context.t ->
            bool * rpct_error_context.t) :=
  if String.eqb typename "int64" && String.eqb key "min"
  then Some (fun obj value _ errctx =>
               match ro_value obj, ro_value value with
               | rv_i i, rv_i m =>
                   if m <=? i then (true, errctx)
                   else (false, rpct_add_error errctx None "Value too small")
               | _, _ => (false, rpct_add_error errctx None "Not an integer")
               end)
  else None.

Definition sample_constraints : gmap string rpc_object :=
  {[ "min" := rpc_int64_create 0; "regex" := rpc_string_create "a*" ]}.

Definition sample_constraints_iter (m : gmap string rpc_object)
  : list (string * rpc_object) := map_to_list m.

(** A table of instances with the builtin "any" at address 0 and [int64]
    at address 1. *)
Definition any_world : world :=
  {| context := context fresh_world;
     heap := {[ 0%nat := instance_of (builtin_type "any") "any" ∅;
                1%nat := instance_of (builtin_type "int64") "int64" ∅ ]};
     brk := 2%nat |}.

(** An integer that carries the annotation [p]. *)
Definition rpc_int64_of_typei (p : typei_ptr) (i : Z) : rpc_object :=
  {| ro_type := RPC_TYPE_INT64; ro_typei := Some p; ro_value := rv_i i |}.

(** [method neg (a: int64)], with the instance of [int64] at address 0. *)
Definition neg_method : rpct_if_member.t :=
  {| rpct_if_member.rim_name := "neg";
     rpct_if_member.description := None;
     rpct_if_member.arguments :=
       Some [ {| rpct_argument.name := "a"; rpct_argument.description := None;
                 rpct_argument.type := 0%nat |} ];
     rpct_if_member.result := Some 0%nat |}.

(** ** Further operations of the public API and of the servers *)

(** [rpct_method_get_arguments_count (method)]. *)
Definition rpct_method_get_arguments_count (method : rpct_if_member.t) : run Z :=
  match rpct_if_member.arguments method with
  | None => Crash
  | Some arguments => Done (int_of_guint (length arguments))
  end.

(** A call of [rpc_connection_send_event], which is not part of these
    sources: the connection and what it was asked to send. *)
Record rpc_sent_event := Build_rpc_sent_event {
  se_conn : nat;
  se_path : string;
  se_interface : string;
  se_name : string;
  se_args : rpc_object
}.

(** [rpc_server_broadcast_event (server, path, interface, name, args)]: the
    calls of [rpc_connection_send_event] it makes, in order. *)
Definition rpc_server_broadcast_event (server : rpc_server_t)
    (path interface name : string) (args : rpc_object) (sw : server_world)
  : run (list rpc_sent_event) :=
  match servers sw !! server with
  | None => Crash
  | Some s =>
      if rs_closed s then Done []
      else Done (map (fun conn =>
                        {| se_conn := rco_addr conn; se_path := path;
                           se_interface := interface; se_name := name;
                           se_args := args |})
                     (rs_connections s))
  end.

(** The status [rpc_server_close] returns for a server on the list of its
    context: that of the teardown hook of the transport, or 0. *)
Definition teardown_status (s : rpc_server) : Z :=
  match rs_teardown s with
  | Some status => status
  | None => 0
  end.

(** A server with another list of connections. *)
Definition with_connections (s : rpc_server) (l : list rpc_connection)
  : rpc_server :=
  {| rs_uri := rs_uri s; rs_closed := rs_closed s; rs_connections := l;
     rs_teardown := rs_teardown s |}.

(** The state in which [rpc_server_close] starts to wait for the
    connections of a server that was on the list of its context: the server
    is off the list and closed, and the connections that have an [rco_abort]
    callback were told to abort. *)
Definition rpc_server_closing (server : rpc_server_t) (s : rpc_server)
    (sw : server_world) : server_world :=
  {| rcx_servers := snd (g_ptr_array_remove (rcx_servers sw) server);
     rcx_dispatched := rcx_dispatched sw;
     servers := <[server := {| rs_uri := rs_uri s; rs_closed := true;
                               rs_connections := rs_connections s;
                               rs_teardown := rs_teardown s |}]> (servers sw);
     aborted := aborted sw ++
                map rco_addr (filter (fun c => rco_abort c = true)
                                     (rs_connections s)) |}.

(** A context whose only server, at address 7, has the connections at the
    addresses 41 and 42. *)
Definition busy_server : rpc_server :=
  {| rs_uri := "unix:///tmp/a"; rs_closed := false;
     rs_connections := [conn41; conn42]; rs_teardown := Some 0 |}.

Definition busy_world : server_world :=
  {| rcx_servers := [7%nat]; rcx_dispatched := [];
     servers := {[ 7%nat := busy_server ]}; aborted := [] |}.

(** * Properties *)

(** ** Index accessors *)

Lemma int_of_guint_small (len : nat) :
  Z.of_nat len < 2 ^ 31 -> int_of_guint len = Z.of_nat len.
Proof.
  intros H. unfold int_of_guint.
  rewrite Z.mod_small by lia.
  destruct (Z.ltb_spec (Z.of_nat len) (2 ^ 31)); lia.
Qed.

Lemma rpct_type_get_generic_var_outside (type : rpct_type.t) (index : Z) :
  Z.of_nat (length (rpct_type.generic_vars type)) < 2 ^ 31 ->
  index < 0 \/ Z.of_nat (length (rpct_type.generic_vars type)) < index ->
  rpct_type_get_generic_var type index = Null.
Proof.
  intros Hlen Hidx. unfold rpct_type_get_generic_var.
  rewrite int_of_guint_small by exact Hlen.
  destruct (Z.ltb_spec index 0) as [|Hge]; [reflexivity|].
  destruct (Z.gtb_spec index (Z.of_nat (length (rpct_type.generic_vars type))));
    [reflexivity | lia].
Qed.

Lemma rpct_type_get_generic_var_at_len (type : rpct_type.t) :
  Z.of_nat (length (rpct_type.generic_vars type)) < 2 ^ 31 ->
  rpct_type_get_generic_var type
    (Z.of_nat (length (rpct_type.generic_vars type))) = OutOfBounds.
Proof.
  intros Hlen. unfold rpct_type_get_generic_var.
  rewrite int_of_guint_small by exact Hlen.
  set (n := length (rpct_type.generic_vars type)).
  destruct (Z.ltb_spec (Z.of_nat n) 0) as [|_]; [lia|].
  destruct (Z.gtb_spec (Z.of_nat n) (Z.of_nat n)) as [|_]; [lia|].
  cbn [orb]. unfold g_ptr_array_index.
  destruct (Z.ltb_spec (Z.of_nat n) 0) as [|_]; [lia|].
  rewrite Nat2Z.id.
  rewrite (proj2 (lookup_ge_None (rpct_type.generic_vars type) n)); [reflexivity|].
  unfold n. lia.
Qed.

Lemma rpct_method_get_argument_at_len (method : rpct_if_member.t)
    (arguments : list rpct_argument.t) :
  rpct_if_member.arguments method = Some arguments ->
  Z.of_nat (length arguments) < 2 ^ 31 ->
  rpct_method_get_argument method (Z.of_nat (length arguments))
  = Done OutOfBounds.
Proof.
  intros Hargs Hlen. unfold rpct_method_get_argument. rewrite Hargs.
  rewrite int_of_guint_small by exact Hlen.
  set (n := length arguments).
  destruct (Z.ltb_spec (Z.of_nat n) 0) as [|_]; [lia|].
  destruct (Z.gtb_spec (Z.of_nat n) (Z.of_nat n)) as [|_]; [lia|].
  cbn [orb]. unfold g_ptr_array_index.
  destruct (Z.ltb_spec (Z.of_nat n) 0) as [|_]; [lia|].
  rewrite Nat2Z.id.
  rewrite (proj2 (lookup_ge_None arguments n)); [reflexivity|].
  unfold n. lia.
Qed.

(** C9.  The accessors return [NULL] for an index below 0 or above the
    count, but an index equal to the count passes the bounds test
    ([index > len] instead of [index >= len]): for [Pair<A,B>] and index 2,
    and for [add (a, b)] and index 2, the accessors read one slot past the
    end of the array instead of returning [NULL]. *)
Theorem rpct_get_generic_var_at_count_reads_past_end :
  rpct_type_get_generic_vars_count pair_type = 2 /\
  rpct_type_get_generic_var pair_type 2 = OutOfBounds /\
  rpct_type_get_generic_var pair_type 3 = Null /\
  rpct_type_get_generic_var pair_type (-1) = Null /\
  rpct_method_get_argument add_method 2 = Done OutOfBounds /\
  rpct_method_get_argument add_method 3 = Done Null.
Proof. repeat split; reflexivity. Qed.

(** ** Name resolution *)

Section LookupFacts.

Variable rpct_chain_load : string -> world -> world.

Lemma rpct_find_type_uses_first_found (name : string) (uses : list string)
    (w : world) :
  rpct_find_type_uses rpct_chain_load name uses w
  = first_found rpct_chain_load
      (map (fun prefix => prefix +:+ "." +:+ name) uses) w.
Proof.
  revert w. induction uses as [|prefix rest IH]; intros w; cbn [rpct_find_type_uses map first_found].
  - reflexivity.
  - destruct (rpct_find_type rpct_chain_load (prefix +:+ "." +:+ name) w)
      as [[result|] w']; [reflexivity | apply IH].
Qed.

(** C6.  [rpct_find_type_fuzzy] looks the name up verbatim, then under the
    namespace of the file, then under each entry of the file's use list in
    order, and returns the first type found; it returns not-found when no
    candidate is found. *)
Theorem rpct_find_type_fuzzy_first_found (name : string)
    (origin : option rpct_file.t) (w : world) :
  rpct_find_type_fuzzy rpct_chain_load name origin w
  = first_found rpct_chain_load (fuzzy_candidates name origin) w.
Proof.
  unfold rpct_find_type_fuzzy, fuzzy_candidates. cbn [first_found].
  destruct (rpct_find_type rpct_chain_load name w) as [[result|] w1];
    [reflexivity|].
  destruct origin as [origin|]; [|reflexivity].
  destruct (rpct_file.ns origin) as [ns|]; cbn [app first_found].
  - destruct (rpct_find_type rpct_chain_load (ns +:+ "." +:+ name) w1)
      as [[result|] w2]; [reflexivity|].
    apply rpct_find_type_uses_first_found.
  - apply rpct_find_type_uses_first_found.
Qed.

End LookupFacts.

(** ** Compatibility *)

(** The loop of the compatibility check decides the relation
    [ancestor_named]. *)
Lemma parent_chain_has_iff (target : string) :
  forall type : rpct_type.t,
    parent_chain_has target type = true <-> ancestor_named target type.
Proof.
  fix IH 1.
  intros [name clazz generic vars [p|] definition file];
    cbn [parent_chain_has ancestor_named rpct_type.parent].
  - destruct (String.eqb_spec (rpct_type.name p) target) as [Heq|Hne].
    + split; [intros _; left; exact Heq | reflexivity].
    + rewrite (IH p).
      split; [intros H; right; exact H | intros [H|H]; [contradiction | exact H]].
  - split; [discriminate | contradiction].
Qed.

(** What [rpct_type_is_compatible] computes, slip included: the ancestors of
    [type] are compared with the name of [type] itself, not with the name
    of [decl]. *)
Lemma rpct_type_is_compatible_spec (decl type : rpct_typei.t)
    (decl_type type_type : rpct_type.t) :
  rpct_typei.type decl = Some decl_type ->
  rpct_typei.type type = Some type_type ->
  rpct_type_is_compatible decl type =
  Done (String.eqb (rpct_type.name decl_type) "any"
        || negb (g_hash_table_size (rpct_typei.specializations decl) <?
                 g_hash_table_size (rpct_typei.specializations type))%nat
           && (String.eqb (rpct_type.name decl_type) (rpct_type.name type_type)
               || parent_chain_has (rpct_type.name type_type) type_type)).
Proof.
  intros Hd Ht. unfold rpct_type_is_compatible. rewrite Hd, Ht.
  destruct (String.eqb (rpct_type.name decl_type) "any"); [reflexivity|].
  destruct (_ <? _)%nat; [reflexivity|].
  destruct (String.eqb (rpct_type.name decl_type) (rpct_type.name type_type));
    [reflexivity|].
  cbn [negb orb andb].
  destruct (parent_chain_has _ _); reflexivity.
Qed.



(** The walk up the parent chain never finds the declared type: for the
    non-generic [Child], whose parent is [Base], an object of type [Child]
    is not accepted where [Base] is declared. *)
Lemma rpct_type_is_compatible_ignores_parent :
  ancestor_named (rpct_type.name base_type) child_type /\
  rpct_type_is_compatible base_instance child_instance = Done false.
Proof. split; [cbn; left; reflexivity | reflexivity]. Qed.


(** ** Unwinding typedefs *)

Lemma rpct_class_eqb_eq (a b : rpct_class_t) :
  rpct_class_eqb a b = true <-> a = b.
Proof. destruct a, b; cbn; split; congruence. Qed.

Lemma rpct_unwind_typei_unfold (fuel : nat) (h : gmap typei_ptr rpct_typei.t)
    (current : option typei_ptr) :
  rpct_unwind_typei fuel h current =
  match current with
  | None => Done None
  | Some p =>
      match h !! p with
      | None => Crash
      | Some ti =>
          match rpct_typei.type ti with
          | None => Crash
          | Some type =>
              if rpct_class_eqb (rpct_type.clazz type) RPC_TYPING_TYPEDEF
              then match fuel with
                   | O => Timeout
                   | S fuel' =>
                       rpct_unwind_typei fuel' h (rpct_type.definition type)
                   end
              else Done (Some p)
          end
      end
  end.
Proof. destruct fuel; reflexivity. Qed.

Section Unwind.

Variable h : gmap typei_ptr rpct_typei.t.

(** Typedefs form no cycles. *)
Hypothesis acyclic : forall q, ~ tc (typedef_step h) q q.


End Unwind.






(** ** Validation *)

Section ValidateFacts.

Variable rpc_get_type_name : rpc_type_t -> string.
Variable rpc_find_class_handler :
  rpct_class_t ->
  option (typei_ptr -> rpc_object -> rpct_error_context.t -> world ->
          run (bool * rpct_error_context.t * world)).



(** The state the block of [rpct_validate_args] leaves behind does not
    depend on the items past the declared arguments. *)
Lemma rpct_validate_args_block_take (fuel : nat)
    (arguments : list rpct_argument.t) (items : list rpc_object) :
  forall (idx : nat) (st : rpct_error_context.t * bool * world),
    run_bind (rpc_array_apply_from idx items
                (rpct_validate_args_block rpc_get_type_name rpc_find_class_handler
                   fuel arguments) st)
             (fun r => Done (snd r))
    = run_bind (rpc_array_apply_from idx (take (length arguments - idx) items)
                  (rpct_validate_args_block rpc_get_type_name rpc_find_class_handler
                     fuel arguments) st)
               (fun r => Done (snd r)).
Proof.
  induction items as [|v rest IH]; intros idx st.
  - rewrite take_nil. reflexivity.
  - destruct (decide (length arguments <= idx)%nat) as [Hle|Hgt].
    + replace (length arguments - idx)%nat with 0%nat by lia.
      cbn [take rpc_array_apply_from run_bind].
      unfold rpct_validate_args_block at 1.
      destruct st as [[errctx valid] w].
      rewrite (proj2 (Nat.leb_le _ _) Hle). reflexivity.
    + replace (length arguments - idx)%nat
        with (S (length arguments - S idx)) by lia.
      cbn [take rpc_array_apply_from].
      destruct (rpct_validate_args_block rpc_get_type_name rpc_find_class_handler
                  fuel arguments idx v st) as [[go_on st']| |];
        cbn [run_bind]; [|reflexivity|reflexivity].
      destruct go_on; [apply IH | reflexivity].
Qed.

(** C10.  [rpct_validate_args] returns true without looking at anything when
    the member has no argument list; otherwise two argument arrays that
    agree on their first N items, N being the number of declared arguments,
    give the same validity, the same error array and the same state: the
    items past the declared arguments are never validated. *)
Theorem rpct_validate_args_ignores_extra (fuel : nat) (func : rpct_if_member.t)
    (want_errors : bool) (w : world) :
  (rpct_if_member.arguments func = None ->
   forall args,
     rpct_validate_args rpc_get_type_name rpc_find_class_handler
       fuel func args want_errors w = Done (true, None, w)) /\
  (forall arguments args args',
     rpct_if_member.arguments func = Some arguments ->
     take (length arguments) (rpc_array_items args)
     = take (length arguments) (rpc_array_items args') ->
     rpct_validate_args rpc_get_type_name rpc_find_class_handler
       fuel func args want_errors w
     = rpct_validate_args rpc_get_type_name rpc_find_class_handler
         fuel func args' want_errors w).
Proof.
  split.
  - intros Hnone args. unfold rpct_validate_args. rewrite Hnone. reflexivity.
  - intros arguments args args' Hsome Htake.
    unfold rpct_validate_args, rpc_array_apply. rewrite Hsome.
    set (block := rpct_validate_args_block rpc_get_type_name
                    rpc_find_class_handler fuel arguments).
    set (st0 := ({| rpct_error_context.path := "";
                    rpct_error_context.errors := [] |}, true, w)).
    pose proof (rpct_validate_args_block_take fuel arguments
                  (rpc_array_items args) 0%nat st0) as H1.
    pose proof (rpct_validate_args_block_take fuel arguments
                  (rpc_array_items args') 0%nat st0) as H2.
    rewrite Nat.sub_0_r in H1, H2. fold block in H1, H2.
    rewrite Htake in H1. rewrite <- H2 in H1. clear H2.
    destruct (rpc_array_apply_from 0 (rpc_array_items args) block st0)
      as [[f1 s1]| |];
    destruct (rpc_array_apply_from 0 (rpc_array_items args') block st0)
      as [[f2 s2]| |];
    cbn [run_bind snd] in H1 |- *; try discriminate; try reflexivity.
    injection H1 as ->. reflexivity.
Qed.

End ValidateFacts.


Lemma rpct_validate_args_ignores_extra_witness :
  rpct_validate_args sample_type_name accept_all_handler 3 add_method
    (rpc_array_of [rpc_int64_create 1; rpc_int64_create 2; rpc_string_create "x"])
    true calc_world
  = rpct_validate_args sample_type_name accept_all_handler 3 add_method
      (rpc_array_of [rpc_int64_create 1; rpc_int64_create 2]) true calc_world /\
  rpct_validate_args sample_type_name accept_all_handler 3 add_method
    (rpc_array_of [rpc_int64_create 1; rpc_int64_create 2; rpc_string_create "x"])
    true calc_world
  = Done (true, Some (rpc_array_of []), calc_world).
Proof.
  split; [|reflexivity].
  exact (proj2 (rpct_validate_args_ignores_extra sample_type_name
                  accept_all_handler 3 add_method true calc_world)
           _ _ _ eq_refl eq_refl).
Defined.

(** ** The pre-call hook *)

Section HookFacts.

Variable rpc_get_type_name : rpc_type_t -> string.
Variable rpc_find_class_handler :
  rpct_class_t ->
  option (typei_ptr -> rpc_object -> rpct_error_context.t -> world ->
          run (bool * rpct_error_context.t * world)).



End HookFacts.


(** ** Closing a server *)

Lemma rpc_server_accept_closed (server : rpc_server_t) (conn : rpc_connection)
    (sw : server_world) :
  closed_at server sw -> rpc_server_accept server conn sw = Done (-1, sw).
Proof.
  intros (s & Hs & Hclosed). unfold rpc_server_accept.
  rewrite Hs, Hclosed. reflexivity.
Qed.

Lemma remove_link_sublist (conn : rpc_connection) (l rest : list rpc_connection) :
  remove_link conn l = Some rest -> rest `sublist_of` l.
Proof.
  revert rest. induction l as [|comp l IH]; intros rest; cbn [remove_link].
  - discriminate.
  - destruct (rco_addr comp =? rco_addr conn)%nat.
    + intros [= <-]. apply sublist_cons. reflexivity.
    + destruct (remove_link conn l) as [rest'|]; [|discriminate].
      intros [= <-]. apply sublist_skip. apply IH. reflexivity.
Qed.

(** Nothing that happens to a closed server opens it again or adds a
    connection to it, and an accept leaves it as it is. *)
Lemma server_step_closed (server : rpc_server_t) (a : server_action)
    (sw : server_world) :
  closed_at server sw ->
  exists ret sw',
    server_step server a sw = Done (ret, sw') /\
    closed_at server sw' /\
    rcx_servers sw' = rcx_servers sw /\
    server_connections server sw' `sublist_of` server_connections server sw /\
    (forall conn, a = ActAccept conn -> ret = -1 /\ sw' = sw).
Proof.
  intros Hclosed. destruct a as [conn|conn]; cbn [server_step].
  - exists (-1), sw. rewrite rpc_server_accept_closed by exact Hclosed.
    repeat split; auto.
  - destruct Hclosed as (s & Hs & Hflag).
    unfold rpc_server_remove_connection. rewrite Hs.
    destruct (remove_link conn (rs_connections s)) as [rest|] eqn:Hrm.
    + eexists _, _. split; [reflexivity|].
      split; [|split; [reflexivity|split]].
      * eexists. cbn [servers set_server]. rewrite lookup_insert_eq.
        split; [reflexivity | exact Hflag].
      * unfold server_connections. cbn [servers set_server].
        rewrite lookup_insert_eq, Hs. cbn [rs_connections].
        eapply remove_link_sublist, Hrm.
      * intros c [=].
    + exists (-1), sw.
      split; [reflexivity|]. split; [exists s; auto|].
      split; [reflexivity|]. split; [reflexivity|]. intros c [=].
Qed.

Lemma server_steps_closed (server : rpc_server_t) (actions : list server_action) :
  forall sw,
    closed_at server sw ->
    exists rets sw',
      server_steps server actions sw = Done (rets, sw') /\
      closed_at server sw' /\
      rcx_servers sw' = rcx_servers sw /\
      server_connections server sw' `sublist_of` server_connections server sw /\
      (forall conn ret, (ActAccept conn, ret) ∈ rets -> ret = -1).
Proof.
  induction actions as [|a rest IH]; intros sw Hclosed; cbn [server_steps].
  - exists [], sw. repeat split; auto. intros conn ret Hin.
    apply elem_of_nil in Hin. contradiction.
  - destruct (server_step_closed server a sw Hclosed)
      as (ret & sw1 & Hstep & Hc1 & Hl1 & Hs1 & Hacc).
    destruct (IH sw1 Hc1) as (rets & sw2 & Hsteps & Hc2 & Hl2 & Hs2 & Haccs).
    exists ((a, ret) :: rets), sw2.
    rewrite Hstep. cbn [run_bind]. rewrite Hsteps. cbn [run_bind].
    split; [reflexivity|]. split; [exact Hc2|].
    split; [congruence|]. split; [etransitivity; eassumption|].
    intros conn r Hin. apply elem_of_cons in Hin as [Heq|Hin].
    + injection Heq as <- <-. apply (Hacc conn eq_refl).
    + eapply Haccs, Hin.
Qed.

(** While [rpc_server_close] waits, the server stays closed; the state it
    ends in is reached by a prefix of the schedule. *)
Lemma rpc_server_close_wait_closed (server : rpc_server_t) (ret : Z)
    (schedule : list server_action) :
  forall sw,
    closed_at server sw ->
    exists r k rets,
      rpc_server_close_wait server ret schedule sw = Done r /\
      server_steps server (take k schedule) sw = Done (rets, close_world r) /\
      closed_at server (close_world r) /\
      rcx_servers (close_world r) = rcx_servers sw /\
      match r with
      | CloseReturned ret' sw' => ret' = ret /\ server_connections server sw' = []
      | CloseWaiting _ => True
      end.
Proof.
  induction schedule as [|a rest IH]; intros sw Hclosed;
    cbn [rpc_server_close_wait]; pose proof Hclosed as (s & Hs & Hflag);
    rewrite Hs.
  - destruct (rs_connections s) as [|c cs] eqn:Hconns.
    + exists (CloseReturned ret sw), 0%nat, []. repeat split; auto.
      unfold server_connections. rewrite Hs. exact Hconns.
    + exists (CloseWaiting sw), 0%nat, []. repeat split; auto.
  - destruct (rs_connections s) as [|c cs] eqn:Hconns.
    + exists (CloseReturned ret sw), 0%nat, []. repeat split; auto.
      unfold server_connections. rewrite Hs. exact Hconns.
    + destruct (server_step_closed server a sw Hclosed)
        as (r1 & sw1 & Hstep & Hc1 & Hl1 & _ & _).
      rewrite Hstep. cbn [run_bind].
      destruct (IH sw1 Hc1) as (r & k & rets & Hwait & Hsteps & Hc & Hl & Hr).
      exists r, (S k), ((a, r1) :: rets).
      split; [exact Hwait|]. split.
      * cbn [take server_steps]. rewrite Hstep. cbn [run_bind].
        rewrite Hsteps. reflexivity.
      * split; [exact Hc|]. split; [congruence | exact Hr].
Qed.

Lemma g_ptr_array_remove_present (array : list rpc_server_t) (data : rpc_server_t) :
  fst (g_ptr_array_remove array data) = true <-> data ∈ array.
Proof.
  induction array as [|x rest IH]; cbn [g_ptr_array_remove].
  - split; [discriminate | intros H; apply elem_of_nil in H; contradiction].
  - destruct (Nat.eqb_spec x data) as [->|Hne].
    + split; [intros _; apply list_elem_of_here | reflexivity].
    + destruct (g_ptr_array_remove rest data) as [present rest'].
      cbn [fst] in *. rewrite IH. rewrite elem_of_cons.
      split; [auto | intros [H|H]; [congruence | exact H]].
Qed.

Lemma g_ptr_array_remove_NoDup (array : list rpc_server_t) (data : rpc_server_t) :
  NoDup array -> data ∉ snd (g_ptr_array_remove array data).
Proof.
  induction 1 as [|x rest Hx Hnd IH]; cbn [g_ptr_array_remove].
  - apply not_elem_of_nil.
  - destruct (Nat.eqb_spec x data) as [->|Hne]; [exact Hx|].
    destruct (g_ptr_array_remove rest data) as [present rest'].
    cbn [snd] in *. rewrite not_elem_of_cons. auto.
Qed.

(** C8.  [rpc_server_close] returns -1, and changes nothing, when the server
    is not on the server list of its context.  Otherwise it takes the
    server off that list and sets its closed flag; from then on, whatever
    else happens to the server, every accept returns -1 and adds no
    connection. *)
Theorem rpc_server_close_spec (server : rpc_server_t)
    (schedule : list server_action) (sw : server_world) :
  (server ∉ rcx_servers sw ->
   rpc_server_close server schedule sw = Done (CloseReturned (-1) sw)) /\
  (server ∈ rcx_servers sw ->
   is_Some (servers sw !! server) ->
   exists r,
     rpc_server_close server schedule sw = Done r /\
     rcx_servers (close_world r) = snd (g_ptr_array_remove (rcx_servers sw) server) /\
     (NoDup (rcx_servers sw) -> server ∉ rcx_servers (close_world r)) /\
     closed_at server (close_world r) /\
     forall actions,
       exists rets sw',
         server_steps server actions (close_world r) = Done (rets, sw') /\
         (forall conn ret, (ActAccept conn, ret) ∈ rets -> ret = -1) /\
         server_connections server sw'
           `sublist_of` server_connections server (close_world r) /\
         forall conn, rpc_server_accept server conn sw' = Done (-1, sw')).
Proof.
  split.
  - intros Habsent. unfold rpc_server_close.
    pose proof (g_ptr_array_remove_present (rcx_servers sw) server) as Hp.
    destruct (g_ptr_array_remove (rcx_servers sw) server) as [present rest].
    cbn [fst] in Hp. destruct present; [|reflexivity].
    exfalso. apply Habsent, Hp. reflexivity.
  - intros Hpresent [s Hs].
    assert (Hgoal : exists r,
      rpc_server_close server schedule sw = Done r /\
      rcx_servers (close_world r) = snd (g_ptr_array_remove (rcx_servers sw) server) /\
      closed_at server (close_world r)).
    { unfold rpc_server_close.
      pose proof (g_ptr_array_remove_present (rcx_servers sw) server) as Hp.
      destruct (g_ptr_array_remove (rcx_servers sw) server) as [present rest].
      cbn [fst snd] in *. rewrite (proj2 Hp Hpresent). cbn [negb servers].
      rewrite Hs. cbn [rs_connections rs_teardown].
      destruct (rs_connections s) as [|c cs] eqn:Hconns.
      - eexists. split; [reflexivity|]. split; [reflexivity|].
        eexists. cbn [close_world servers set_server].
        rewrite lookup_insert_eq. split; reflexivity.
      - match goal with
        | |- exists r, rpc_server_close_wait _ ?ret _ ?sw0 = _ /\ _ =>
            destruct (rpc_server_close_wait_closed server ret schedule sw0)
              as (r & k & rets & Hwait & _ & Hc & Hl & _)
        end.
        { eexists. cbn [servers set_server]. rewrite lookup_insert_eq.
          split; reflexivity. }
        exists r. split; [exact Hwait|]. split; [exact Hl | exact Hc]. }
    destruct Hgoal as (r & Hclose & Hlist & Hclosed).
    exists r. split; [exact Hclose|]. split; [exact Hlist|].
    split; [intros Hnd; rewrite Hlist; apply g_ptr_array_remove_NoDup, Hnd|].
    split; [exact Hclosed|].
    intros actions.
    destruct (server_steps_closed server actions (close_world r) Hclosed)
      as (rets & sw' & Hsteps & Hc & _ & Hsub & Hacc).
    exists rets, sw'. split; [exact Hsteps|]. split; [exact Hacc|].
    split; [exact Hsub|].
    intros conn. apply rpc_server_accept_closed, Hc.
Qed.

Lemma rpc_server_close_spec_witness :
  rpc_server_close 8%nat [] two_servers = Done (CloseReturned (-1) two_servers) /\
  exists r,
    rpc_server_close 7%nat [ActAccept conn42; ActRemove conn41] two_servers = Done r /\
    rcx_servers (close_world r) = [9%nat] /\
    closed_at 7%nat (close_world r) /\
    exists rets sw',
      server_steps 7%nat [ActAccept conn42] (close_world r) = Done (rets, sw') /\
      rpc_server_accept 7%nat conn42 sw' = Done (-1, sw').
Proof.
  split.
  - apply (proj1 (rpc_server_close_spec 8%nat [] two_servers)).
    cbn. rewrite !not_elem_of_cons. repeat split; try lia. apply not_elem_of_nil.
  - destruct (proj2 (rpc_server_close_spec 7%nat
                       [ActAccept conn42; ActRemove conn41] two_servers))
      as (r & Hclose & Hlist & _ & Hclosed & Hafter).
    + apply list_elem_of_here.
    + eexists. reflexivity.
    + exists r. split; [exact Hclose|]. split; [exact Hlist|].
      split; [exact Hclosed|].
      destruct (Hafter [ActAccept conn42]) as (rets & sw' & Hsteps & _ & _ & Hacc).
      exists rets, sw'. split; [exact Hsteps | apply Hacc].
Defined.

(** ** Instantiation and the canonical cache *)

Lemma string_app_assoc (a b c : string) : (a +:+ b) +:+ c = a +:+ (b +:+ c).
Proof.
  induction a as [|x a IH]; [reflexivity|].
  change (String x ((a +:+ b) +:+ c) = String x (a +:+ (b +:+ c))).
  f_equal. exact IH.
Qed.

Lemma string_app_nil_r (a : string) : a +:+ "" = a.
Proof.
  induction a as [|x a IH]; [reflexivity|].
  change (String x (a +:+ "") = String x a). f_equal. exact IH.
Qed.

Section InstantiateFacts.

Variable rpct_chain_load : string -> world -> world.
Variable g_hash_table_iter : gmap string typei_ptr -> list (string * typei_ptr).
Variable instance_regex : string -> option (string * option string).

Lemma rpct_find_type_fuzzy_verbatim (name : string) (type : rpct_type.t)
    (origin : option rpct_file.t) (w : world) :
  rpct_context.types (context w) !! name = Some type ->
  rpct_find_type_fuzzy rpct_chain_load name origin w = (Some type, w).
Proof.
  intros H. unfold rpct_find_type_fuzzy, rpct_find_type. rewrite H. reflexivity.
Qed.

(** The loop of [rpct_canonical_type] joins the canonical forms of the
    values with commas, in the order the table hands them out. *)
Lemma rpct_canonical_type_loop_join (canon : typei_ptr -> run string)
    (table_size : nat) (entries : list (string * typei_ptr)) :
  forall (forms : list string) (i : Z) (ret : string),
    Forall2 (fun e f => canon (snd e) = Done f) entries forms ->
    0 <= i ->
    i + Z.of_nat (length entries) = Z.of_nat table_size ->
    Z.of_nat table_size < 2 ^ 32 ->
    rpct_canonical_type_loop canon table_size i entries ret
    = Done (ret +:+ comma_join forms).
Proof.
  induction entries as [|[key value] rest IH]; intros forms i ret Hforms Hi Hlen Hsize.
  - inversion Hforms; subst. cbn [rpct_canonical_type_loop comma_join].
    rewrite string_app_nil_r. reflexivity.
  - inversion Hforms as [|e f rest' forms' Hf Hrest]; subst.
    cbn [rpct_canonical_type_loop snd] in *. rewrite Hf. cbn [run_bind].
    cbn [length] in Hlen.
    rewrite (Z.mod_small (Z.of_nat table_size - 1)) by lia.
    rewrite (Z.mod_small (i + 1)) by lia.
    destruct rest as [|e2 rest].
    + inversion Hrest; subst. cbn [length] in Hlen.
      destruct (Z.ltb_spec i (Z.of_nat table_size - 1)); [lia|].
      reflexivity.
    + destruct (Z.ltb_spec i (Z.of_nat table_size - 1)); [|cbn [length] in Hlen; lia].
      rewrite (IH forms' (i + 1)); [|exact Hrest|lia|cbn [length] in *; lia|exact Hsize].
      f_equal. inversion Hrest; subst. cbn [comma_join].
      rewrite !string_app_assoc. reflexivity.
Qed.

(** The canonical form of an instance of a generic type: the name, and
    between angle brackets the canonical forms of the specializations in
    the iteration order of the table. *)
Lemma rpct_canonical_type_generic (fuel : nat) (h : gmap typei_ptr rpct_typei.t)
    (typei : typei_ptr) (ti : rpct_typei.t) (type : rpct_type.t)
    (specs : gmap string typei_ptr) (forms : list string) :
  h !! typei = Some ti ->
  rpct_typei.proxy ti = false ->
  rpct_typei.type ti = Some type ->
  rpct_type.generic type = true ->
  rpct_typei.specializations ti = Some specs ->
  length (g_hash_table_iter specs) = size specs ->
  Z.of_nat (size specs) < 2 ^ 32 ->
  Forall2 (fun e f => rpct_canonical_type g_hash_table_iter fuel h (snd e) = Done f)
          (g_hash_table_iter specs) forms ->
  rpct_canonical_type g_hash_table_iter (S fuel) h typei
  = Done (rpct_type.name type +:+ "<" +:+ comma_join forms +:+ ">").
Proof.
  intros Hh Hproxy Hty Hgen Hspecs Hlen Hsize Hforms.
  cbn [rpct_canonical_type]. rewrite Hh, Hproxy, Hty, Hgen, Hspecs. cbn [negb].
  rewrite (rpct_canonical_type_loop_join _ _ _ forms); [|exact Hforms|lia|lia|exact Hsize].
  cbn [run_bind]. rewrite !string_app_assoc. reflexivity.
Qed.


End InstantiateFacts.


(** C5, on the code.  [Pair] declares its generic variables in the order
    [A], [B].  Instantiating "Pair<int64,string>" binds [A] to [int64] and
    [B] to [string], and yet, in a table that hands out [B] before [A], the
    canonical form comes out as "Pair<string,int64>": the specializations
    are listed in the iteration order of the table, not in the order of
    declaration. *)
Theorem rpct_canonical_type_follows_table_order :
  rpct_type.generic_vars pair_type = ["A"; "B"] /\
  exists ret w a b,
    rpct_instantiate_type no_chain_load bucket_order sample_instance_regex
      3 "Pair<int64,string>" None None None fresh_world = Done (Some ret, w) /\
    (heap w !! ret) ≫= rpct_typei.specializations
      = Some {[ "A" := a; "B" := b ]} /\
    (heap w !! a) ≫= rpct_typei.canonical_form = Some "int64" /\
    (heap w !! b) ≫= rpct_typei.canonical_form = Some "string" /\
    (heap w !! ret) ≫= rpct_typei.canonical_form = Some "Pair<string,int64>".
Proof.
  split; [reflexivity|].
  eexists _, _, 1%nat, 2%nat.
  split; [vm_compute; reflexivity|].
  repeat split; vm_compute; reflexivity.
Qed.

(** In a table that happens to hand out the variables in the order of their
    declaration the canonical form is the declaration itself: [K] comes
    before [V] in the bucket order. *)
Lemma rpct_canonical_type_hashmap :
  exists ret w,
    rpct_instantiate_type no_chain_load bucket_order sample_instance_regex
      3 "HashMap<string,double>" None None None fresh_world = Done (Some ret, w) /\
    (heap w !! ret) ≫= rpct_typei.canonical_form = Some "HashMap<string,double>".
Proof. eexists _, _. split; vm_compute; reflexivity. Qed.

(** The cache is consulted under the name as the declaration spells it and
    filled under the canonical form.  A declaration that only resolves
    through the namespace of its file, "Point" for [com.ex.Point], is
    therefore never found in the cache: every call makes a new instance,
    and storing it releases the one the cache held.  With the canonical
    form as the declaration the two calls share one instance. *)
Lemma rpct_instantiate_type_unqualified_not_shared :
  exists p1 w1 p2 w2,
    rpct_instantiate_type no_chain_load bucket_order sample_instance_regex
      1 "Point" None None (Some point_file) point_world = Done (Some p1, w1) /\
    rpct_instantiate_type no_chain_load bucket_order sample_instance_regex
      1 "Point" None None (Some point_file) w1 = Done (Some p2, w2) /\
    p1 <> p2 /\
    (heap w1 !! p1) ≫= rpct_typei.canonical_form = Some "com.ex.Point" /\
    heap w2 !! p1 = None.
Proof.
  eexists 0%nat, _, 1%nat, _.
  split; [vm_compute; reflexivity|].
  split; [vm_compute; reflexivity|].
  split; [discriminate|].
  split; vm_compute; reflexivity.
Qed.

(** ** Splitting declarations *)

Lemma comma_join_cons (x : string) (l : list string) :
  l <> [] -> comma_join (x :: l) = x +:+ "," +:+ comma_join l.
Proof. destruct l; [congruence | reflexivity]. Qed.

Lemma comma_join_snoc_app (vars : list string) (p q : string) :
  comma_join (vars ++ [p +:+ q])%list = comma_join (vars ++ [p])%list +:+ q.
Proof.
  induction vars as [|v vars IH]; [reflexivity|].
  cbn [app]. rewrite !comma_join_cons by (destruct vars; discriminate).
  rewrite IH, !string_app_assoc. reflexivity.
Qed.

Lemma comma_join_snoc_empty (l : list string) :
  l <> [] -> comma_join (l ++ [""])%list = comma_join l +:+ ",".
Proof.
  induction l as [|x l IH]; [congruence|]. intros _.
  destruct l as [|y l].
  - reflexivity.
  - cbn [app]. rewrite (comma_join_cons x (y :: l ++ [""])%list) by discriminate.
    rewrite (comma_join_cons x (y :: l)) by discriminate.
    cbn [app] in IH. rewrite IH by discriminate.
    rewrite !string_app_assoc. reflexivity.
Qed.



Lemma rpct_parse_type_from_closed (e : string) :
  forall (rest : string) (n n' : Z) (piece : string) (variables : list string),
    nesting_after e n = Some n' ->
    rpct_parse_type_from (e +:+ rest) n piece variables
    = rpct_parse_type_from rest n' (piece +:+ e) variables.
Proof.
  induction e as [|c e IH]; intros rest n n' piece variables Hn.
  - cbn in Hn. injection Hn as <-. rewrite string_app_nil_r. reflexivity.
  - change (String c e +:+ rest) with (String c (e +:+ rest)).
    cbn [rpct_parse_type_from nesting_after] in *.
    replace (piece +:+ String c e)
      with ((piece +:+ String c EmptyString) +:+ e)
      by (rewrite string_app_assoc; reflexivity).
    destruct (Ascii.eqb c "<"%char); [apply IH, Hn|].
    destruct (Ascii.eqb c ">"%char); [apply IH, Hn|].
    destruct (Ascii.eqb c ","%char); [|apply IH, Hn].
    destruct (n =? 0); [discriminate | apply IH, Hn].
Qed.

Lemma rpct_parse_type_from_join (l : list string) :
  forall (e : string) (variables : list string),
    Forall closed_piece (e :: l) ->
    rpct_parse_type_from (comma_join (e :: l)) 0 "" variables
    = (variables ++ e :: l)%list.
Proof.
  induction l as [|e2 l IH]; intros e variables Hall;
    inversion Hall as [|? ? He Hl]; subst.
  - cbn [comma_join]. rewrite <- (string_app_nil_r e) at 1.
    rewrite (rpct_parse_type_from_closed e "" 0 0 "" variables He).
    reflexivity.
  - rewrite comma_join_cons by discriminate.
    rewrite (rpct_parse_type_from_closed e _ 0 0 "" variables He).
    change (rpct_parse_type_from ("," +:+ comma_join (e2 :: l)) 0 ("" +:+ e) variables)
      with (rpct_parse_type_from (comma_join (e2 :: l)) 0 "" (variables ++ [e])).
    rewrite (IH e2 (variables ++ [e])%list Hl), <- app_assoc. reflexivity.
Qed.

(** X2.  The split is aware of nesting: a list of pieces, each of which has
    its commas inside angle brackets only and closes every bracket it
    opens, is recovered from its comma-separated rendering. *)
Theorem rpct_parse_type_of_join (l : list string) :
  l <> [] ->
  Forall closed_piece l ->
  rpct_parse_type (comma_join l) [] = (Z.of_nat (length l), l).
Proof.
  intros Hne Hall. destruct l as [|e l]; [congruence|].
  unfold rpct_parse_type.
  rewrite (rpct_parse_type_from_join l e [] Hall). reflexivity.
Qed.

Lemma rpct_parse_type_of_join_witness :
  rpct_parse_type (comma_join ["string"; "HashMap<string,List<int64>>"; "K"]) []
  = (3, ["string"; "HashMap<string,List<int64>>"; "K"]).
Proof.
  apply (rpct_parse_type_of_join ["string"; "HashMap<string,List<int64>>"; "K"]).
  - discriminate.
  - repeat constructor.
Defined.

(** ** More on unwinding *)

Lemma rpct_unwind_typei_done (h : gmap typei_ptr rpct_typei.t) (fuel : nat) :
  forall (current : option typei_ptr) (r : typei_ptr),
    rpct_unwind_typei fuel h current = Done (Some r) ->
    non_typedef_instance h r /\
    (forall p, current = Some p -> rtc (typedef_step h) p r) /\
    (forall fuel', rpct_unwind_typei fuel' h (Some r) = Done (Some r)).
Proof.
  induction fuel as [|fuel IH]; intros current r; rewrite rpct_unwind_typei_unfold;
    (destruct current as [p|]; [|discriminate]);
    (destruct (h !! p) as [ti|] eqn:Hp; [|discriminate]);
    (destruct (rpct_typei.type ti) as [type|] eqn:Hty; [|discriminate]);
    destruct (rpct_class_eqb (rpct_type.clazz type) RPC_TYPING_TYPEDEF) eqn:Hcls;
    try discriminate.
  all: try (intros [= <-]; split;
            [exists ti, type; repeat split; try assumption;
             intros Heq; apply rpct_class_eqb_eq in Heq; congruence|];
            split; [intros q [= <-]; apply rtc_refl|];
            intros fuel'; rewrite rpct_unwind_typei_unfold, Hp, Hty, Hcls;
            reflexivity).
  intros Hrec. destruct (IH _ _ Hrec) as (Hnon & Hrtc & Hidem).
  split; [exact Hnon|]. split; [|exact Hidem].
  intros q [= <-].
  destruct (rpct_type.definition type) as [d|] eqn:Hd;
    [|rewrite rpct_unwind_typei_unfold in Hrec; discriminate].
  eapply rtc_l; [|apply Hrtc; reflexivity].
  exists ti, type. repeat split; try assumption.
  apply rpct_class_eqb_eq, Hcls.
Qed.

(** X3.  Whenever [rpct_unwind_typei] returns a pointer, it points to an
    allocated instance of a type that is not a typedef, that instance is
    reached from the argument along definitions of typedefs, and unwinding
    it again returns it unchanged. *)
Theorem rpct_unwind_typei_result (h : gmap typei_ptr rpct_typei.t) (fuel : nat)
    (current : option typei_ptr) (r : typei_ptr) :
  rpct_unwind_typei fuel h current = Done (Some r) ->
  non_typedef_instance h r /\
  (forall p, current = Some p -> rtc (typedef_step h) p r) /\
  (forall fuel', rpct_unwind_typei fuel' h (Some r) = Done (Some r)).
Proof. apply rpct_unwind_typei_done. Qed.

Lemma rpct_unwind_typei_result_witness :
  non_typedef_instance typedef_heap 0%nat /\
  (forall p, Some 2%nat = Some p -> rtc (typedef_step typedef_heap) p 0%nat) /\
  (forall fuel', rpct_unwind_typei fuel' typedef_heap (Some 0%nat) = Done (Some 0%nat)).
Proof.
  apply (rpct_unwind_typei_result typedef_heap 2 (Some 2%nat) 0%nat).
  reflexivity.
Defined.

(** ** Reference counts *)

Lemma int32_wrap_succ_pred (r : Z) :
  - 2 ^ 31 <= r < 2 ^ 31 -> int32_wrap (int32_wrap (r + 1) - 1) = r.
Proof.
  intros Hr. unfold int32_wrap.
  destruct (Z.eq_dec r (2 ^ 31 - 1)) as [->|Hne]; [reflexivity|].
  rewrite (Z.mod_small (r + 1 + 2 ^ 31)) by lia.
  replace (r + 1 + 2 ^ 31 - 2 ^ 31 - 1 + 2 ^ 31) with (r + 2 ^ 31) by lia.
  rewrite Z.mod_small by lia. lia.
Qed.

Lemma set_refcnt_set_refcnt (n : Z) (ti : rpct_typei.t) :
  set_refcnt (rpct_typei.refcnt ti) (set_refcnt n ti) = ti.
Proof. destruct ti. reflexivity. Qed.

(** X4.  A retain followed by a release brings the heap back to what it
    was, as long as the count of the instance was not 0.  An instance whose
    count is 0 and which has no table, as a proxy has, is freed by the
    pair. *)
Theorem rpct_typei_retain_release
    (g_hash_table_iter : gmap string typei_ptr -> list (string * typei_ptr))
    (fuel : nat) (typei : typei_ptr) (ti : rpct_typei.t) (w : world) :
  heap w !! typei = Some ti ->
  - 2 ^ 31 <= rpct_typei.refcnt ti < 2 ^ 31 ->
  exists w1,
    rpct_typei_retain typei w = Done (typei, w1) /\
    context w1 = context w /\
    (rpct_typei.refcnt ti <> 0 ->
     rpct_typei_release g_hash_table_iter (S fuel) typei (heap w1)
     = Done (heap w)) /\
    (rpct_typei.refcnt ti = 0 ->
     rpct_typei.specializations ti = None ->
     rpct_typei_release g_hash_table_iter (S fuel) typei (heap w1)
     = Done (delete typei (heap w))).
Proof.
  intros Hp Hrange. unfold rpct_typei_retain. rewrite Hp.
  eexists. split; [reflexivity|]. split; [reflexivity|].
  cbn [heap set_heap rpct_typei_release]. rewrite lookup_insert_eq.
  cbn [rpct_typei.refcnt set_refcnt rpct_typei.specializations].
  rewrite int32_wrap_succ_pred by exact Hrange.
  rewrite insert_insert_eq.
  change {| rpct_typei.proxy := rpct_typei.proxy ti;
            rpct_typei.type := rpct_typei.type ti;
            rpct_typei.variable := rpct_typei.variable ti;
            rpct_typei.canonical_form := rpct_typei.canonical_form ti;
            rpct_typei.specializations := rpct_typei.specializations ti;
            rpct_typei.parent := rpct_typei.parent ti;
            rpct_typei.refcnt := rpct_typei.refcnt ti |}
    with (set_refcnt (rpct_typei.refcnt ti)
            (set_refcnt (int32_wrap (rpct_typei.refcnt ti + 1)) ti)).
  rewrite set_refcnt_set_refcnt.
  split.
  - intros Hnz. rewrite (proj2 (Z.eqb_neq _ _) Hnz). cbn [negb].
    rewrite insert_id by exact Hp. reflexivity.
  - intros Hz Hnone. rewrite Hz, Hnone. cbn [Z.eqb negb run_bind].
    rewrite delete_insert_eq. reflexivity.
Qed.

Lemma rpct_typei_retain_release_witness :
  exists w1,
    rpct_typei_retain 1%nat pair_world = Done (1%nat, w1) /\
    rpct_typei_release bucket_order 1 1%nat (heap w1) = Done pair_heap /\
    exists w2,
      rpct_typei_retain 3%nat pair_world = Done (3%nat, w2) /\
      rpct_typei_release bucket_order 1 3%nat (heap w2)
      = Done (delete 3%nat pair_heap).
Proof.
  destruct (rpct_typei_retain_release bucket_order 0 1%nat
              (instance_of (builtin_type "int64") "int64" ∅) pair_world
              eq_refl ltac:(cbn; lia)) as (w1 & H1 & _ & H2 & _).
  exists w1. split; [exact H1|]. split; [apply H2; discriminate|].
  destruct (rpct_typei_retain_release bucket_order 0 3%nat
              (proxy_typei "A") pair_world
              eq_refl ltac:(cbn; lia)) as (w2 & H3 & _ & _ & H4).
  exists w2. split; [exact H3 | apply H4; reflexivity].
Defined.

(** ** More on canonical forms and instantiation *)

Lemma insert_by_bucket_perm (e : string * typei_ptr) (l : list (string * typei_ptr)) :
  insert_by_bucket e l ≡ₚ e :: l.
Proof.
  induction l as [|x l IH]; cbn [insert_by_bucket]; [reflexivity|].
  destruct (bucket_of e.1 <=? bucket_of x.1); [reflexivity|].
  rewrite IH. apply perm_swap.
Qed.

Lemma bucket_order_perm (m : gmap string typei_ptr) :
  bucket_order m ≡ₚ map_to_list m.
Proof.
  unfold bucket_order. induction (map_to_list m) as [|e l IH]; cbn [foldr];
    [reflexivity|].
  rewrite insert_by_bucket_perm, IH. reflexivity.
Qed.

Lemma rpc_ptr_array_string_index_from_spec (array : list string) (str : string) :
  forall i, 0 <= i ->
    (str ∈ array -> i <= rpc_ptr_array_string_index_from i array str) /\
    (str ∉ array -> rpc_ptr_array_string_index_from i array str = -1).
Proof.
  induction array as [|x rest IH]; intros i Hi; cbn [rpc_ptr_array_string_index_from].
  - split; [intros H; apply elem_of_nil in H; contradiction | reflexivity].
  - destruct (String.eqb_spec x str) as [->|Hne].
    + split; [lia | intros H; exfalso; apply H, list_elem_of_here].
    + destruct (IH (i + 1) ltac:(lia)) as [H1 H2]. split.
      * intros Hin. apply elem_of_cons in Hin as [Heq|Hin]; [congruence|].
        specialize (H1 Hin). lia.
      * intros Hnin. apply H2. intros Hin. apply Hnin, list_elem_of_further, Hin.
Qed.

Lemma rpc_ptr_array_string_index_found (array : list string) (str : string) :
  (rpc_ptr_array_string_index array str =? -1) = negb (bool_decide (str ∈ array)).
Proof.
  unfold rpc_ptr_array_string_index.
  destruct (rpc_ptr_array_string_index_from_spec array str 0 ltac:(lia)) as [H1 H2].
  destruct (decide (str ∈ array)) as [Hin|Hnin].
  - rewrite bool_decide_eq_true_2 by exact Hin. specialize (H1 Hin).
    cbn [negb]. apply Z.eqb_neq. lia.
  - rewrite bool_decide_eq_false_2 by exact Hnin. rewrite (H2 Hnin). reflexivity.
Qed.

Section MoreInstantiateFacts.

Variable rpct_chain_load : string -> world -> world.
Variable g_hash_table_iter : gmap string typei_ptr -> list (string * typei_ptr).
Variable instance_regex : string -> option (string * option string).

(** X5.  With a single generic variable the order of iteration cannot
    matter: whenever the iteration hands out every entry once, the
    canonical form of an instance with one specialization is the name of
    the type and the canonical form of that specialization in angle
    brackets. *)
Theorem rpct_canonical_type_one_variable (fuel : nat)
    (h : gmap typei_ptr rpct_typei.t) (typei : typei_ptr) (ti : rpct_typei.t)
    (type : rpct_type.t) (var : string) (subtype : typei_ptr) (form : string) :
  (forall m, g_hash_table_iter m ≡ₚ map_to_list m) ->
  h !! typei = Some ti ->
  rpct_typei.proxy ti = false ->
  rpct_typei.type ti = Some type ->
  rpct_type.generic type = true ->
  rpct_typei.specializations ti = Some {[ var := subtype ]} ->
  rpct_canonical_type g_hash_table_iter fuel h subtype = Done form ->
  rpct_canonical_type g_hash_table_iter (S fuel) h typei
  = Done (rpct_type.name type +:+ "<" +:+ form +:+ ">").
Proof.
  intros Hperm Hh Hproxy Hty Hgen Hspecs Hform.
  assert (Hiter : g_hash_table_iter {[ var := subtype ]} = [(var, subtype)]).
  { apply Permutation_singleton_r. rewrite Hperm, map_to_list_singleton.
    reflexivity. }
  cbn [rpct_canonical_type]. rewrite Hh, Hproxy, Hty, Hgen, Hspecs. cbn [negb].
  rewrite Hiter, map_size_singleton.
  cbn [rpct_canonical_type_loop snd]. rewrite Hform. cbn [run_bind].
  change (0 <? (Z.of_nat 1 - 1) `mod` 2 ^ 32) with false. cbn iota.
  rewrite !string_app_assoc. reflexivity.
Qed.

(** X6.  A declaration whose name is no type and is not bound by an
    enclosing instance is a generic variable or an error: when the name is
    one of the generic variables of [ptype], the result is a fresh proxy
    whose canonical form is the name, with a count of 0 and outside the
    cache; otherwise the result is [NULL] and nothing is allocated. *)
Theorem rpct_instantiate_type_unknown_name (fuel : nat) (decl decltype : string)
    (declvars : option string) (parent : option typei_ptr)
    (ptype : option rpct_type.t) (origin : option rpct_file.t) (w w1 : world) :
  instance_regex decl = Some (decltype, declvars) ->
  rpct_find_type_fuzzy rpct_chain_load decltype origin w = (None, w1) ->
  rpct_find_in_parents fuel (heap w1) decltype parent = Done None ->
  rpct_instantiate_type rpct_chain_load g_hash_table_iter instance_regex
    (S fuel) decl parent ptype origin w
  = if match ptype with
       | Some pt => rpct_type.generic pt
                    && bool_decide (decltype ∈ rpct_type.generic_vars pt)
       | None => false
       end
    then Done (Some (brk w1),
               {| context := context w1;
                  heap := <[brk w1 := proxy_typei decltype]> (heap w1);
                  brk := S (brk w1) |})
    else Done (None, w1).
Proof.
  intros Hregex Hfind Hparents.
  cbn [rpct_instantiate_type]. rewrite Hregex, Hfind, Hparents. cbn [run_bind].
  destruct ptype as [pt|]; [|reflexivity].
  destruct (rpct_type.generic pt); [|reflexivity]. cbn [andb].
  rewrite rpc_ptr_array_string_index_found.
  destruct (bool_decide (decltype ∈ rpct_type.generic_vars pt)); reflexivity.
Qed.

(** X7.  An instance of a generic type needs as many variables as the type
    declares: when the declaration has no variables or a different number
    of them, the result is [NULL], the instance that was allocated for it
    is freed again and the cache is left alone. *)
Theorem rpct_instantiate_type_arity (fuel : nat) (decl name : string)
    (declvars : option string) (type : rpct_type.t) (parent : option typei_ptr)
    (ptype : option rpct_type.t) (origin : option rpct_file.t) (w : world) :
  instance_regex decl = Some (name, declvars) ->
  rpct_context.types (context w) !! name = Some type ->
  rpct_type.generic type = true ->
  (forall vars, declvars = Some vars ->
                length (snd (rpct_parse_type vars []))
                <> length (rpct_type.generic_vars type)) ->
  g_hash_table_iter ∅ = [] ->
  heap w !! brk w = None ->
  rpct_instantiate_type rpct_chain_load g_hash_table_iter instance_regex
    (S fuel) decl parent ptype origin w
  = Done (None, {| context := context w; heap := heap w; brk := S (brk w) |}).
Proof.
  intros Hregex Htype Hgen Harity Hiter Hfresh.
  cbn [rpct_instantiate_type]. rewrite Hregex.
  rewrite (rpct_find_type_fuzzy_verbatim rpct_chain_load name type origin w Htype).
  rewrite Hgen. cbn [negb]. unfold alloc_typei.
  assert (Hrelease :
    rpct_typei_release g_hash_table_iter (S fuel) (brk w)
      (<[brk w := {| rpct_typei.proxy := false; rpct_typei.type := Some type;
                     rpct_typei.variable := None;
                     rpct_typei.canonical_form := None;
                     rpct_typei.specializations := Some ∅;
                     rpct_typei.parent := parent; rpct_typei.refcnt := 1 |}]>
         (heap w))
    = Done (heap w)).
  { cbn [rpct_typei_release]. rewrite lookup_insert_eq.
    cbn [rpct_typei.refcnt rpct_typei.specializations set_refcnt].
    change (int32_wrap (1 - 1) =? 0) with true. cbn [negb].
    rewrite Hiter. cbn [map release_values run_bind].
    rewrite insert_insert_eq, delete_insert_eq, delete_id by exact Hfresh.
    reflexivity. }
  destruct declvars as [vars|].
  - specialize (Harity vars eq_refl).
    rewrite (proj2 (Nat.eqb_neq _ _) Harity). cbn [negb run_bind heap].
    rewrite Hrelease. reflexivity.
  - cbn [run_bind heap]. rewrite Hrelease. reflexivity.
Qed.



End MoreInstantiateFacts.

Lemma rpct_canonical_type_one_variable_witness :
  rpct_canonical_type bucket_order 2
    (<[4%nat := instance_of derived_type "Derived<int64>" {[ "T" := 1%nat ]}]> pair_heap)
    4%nat
  = Done "Derived<int64>".
Proof.
  apply (rpct_canonical_type_one_variable bucket_order 1 _ 4%nat
           (instance_of derived_type "Derived<int64>" {[ "T" := 1%nat ]})
           derived_type "T" 1%nat "int64").
  - apply bucket_order_perm.
  - reflexivity.
  - reflexivity.
  - reflexivity.
  - reflexivity.
  - reflexivity.
  - reflexivity.
Defined.

Lemma rpct_instantiate_type_unknown_name_witness :
  rpct_instantiate_type no_chain_load bucket_order sample_instance_regex
    1 "B" None (Some pair_type) None pair_world
  = Done (Some 4%nat,
          {| context := context pair_world;
             heap := <[4%nat := proxy_typei "B"]> pair_heap;
             brk := 5%nat |}) /\
  rpct_instantiate_type no_chain_load bucket_order sample_instance_regex
    1 "Bogus" None (Some pair_type) None pair_world
  = Done (None, pair_world).
Proof.
  split.
  - apply (rpct_instantiate_type_unknown_name no_chain_load bucket_order
             sample_instance_regex 0 "B" "B" None None (Some pair_type) None
             pair_world pair_world); reflexivity.
  - apply (rpct_instantiate_type_unknown_name no_chain_load bucket_order
             sample_instance_regex 0 "Bogus" "Bogus" None None (Some pair_type) None
             pair_world pair_world); reflexivity.
Defined.

Lemma rpct_instantiate_type_arity_witness :
  rpct_instantiate_type no_chain_load bucket_order sample_instance_regex
    1 "Pair<int64>" None None None pair_world
  = Done (None, {| context := context pair_world; heap := pair_heap;
                   brk := 5%nat |}).
Proof.
  apply (rpct_instantiate_type_arity no_chain_load bucket_order
           sample_instance_regex 0 "Pair<int64>" "Pair" (Some "int64") pair_type
           None None None pair_world); try reflexivity.
  intros vars [= <-]. vm_compute. lia.
Defined.


(** ** More on validation *)

Lemma rpct_unwind_typei_same_types (h h' : gmap typei_ptr rpct_typei.t) :
  same_types h h' ->
  forall fuel current,
    rpct_unwind_typei fuel h current = rpct_unwind_typei fuel h' current.
Proof.
  intros Hsame. induction fuel as [|fuel IH]; intros current;
    rewrite !(rpct_unwind_typei_unfold _ _ current);
    (destruct current as [p|]; [|reflexivity]);
    specialize (Hsame p);
    destruct (h !! p) as [ti|], (h' !! p) as [ti'|]; cbn in Hsame;
    try discriminate; try reflexivity;
    injection Hsame as Hsame; rewrite Hsame;
    destruct (rpct_typei.type ti') as [type|]; try reflexivity;
    destruct (rpct_class_eqb _ _); try reflexivity.
  apply IH.
Qed.

Lemma same_types_set_refcnt (h : gmap typei_ptr rpct_typei.t) (p : typei_ptr)
    (ti : rpct_typei.t) (n : Z) :
  h !! p = Some ti -> same_types h (<[p := set_refcnt n ti]> h).
Proof.
  intros Hp q. destruct (decide (p = q)) as [<-|Hne].
  - rewrite lookup_insert_eq, Hp. reflexivity.
  - rewrite lookup_insert_ne by exact Hne. reflexivity.
Qed.

Lemma rpct_type_is_compatible_refl (ti : rpct_typei.t) (type : rpct_type.t) :
  rpct_typei.type ti = Some type -> rpct_type_is_compatible ti ti = Done true.
Proof.
  intros Hty.
  rewrite (rpct_type_is_compatible_spec ti ti type type Hty Hty).
  rewrite Nat.ltb_irrefl, String.eqb_refl. cbn [negb andb orb].
  rewrite orb_true_r. reflexivity.
Qed.

Section MoreValidateFacts.

Variable rpc_get_type_name : rpc_type_t -> string.
Variable rpc_find_class_handler :
  rpct_class_t ->
  option (typei_ptr -> rpc_object -> rpct_error_context.t -> world ->
          run (bool * rpct_error_context.t * world)).

(** What [rpct_validate_instance] comes to once the type check is known. *)
Lemma rpct_validate_instance_after_check (fuel : nat) (typei raw : typei_ptr)
    (typei_v raw_typei : rpct_typei.t) (obj : rpc_object)
    (errctx : rpct_error_context.t) (w : world) (check : type_check) :
  rpct_unwind_typei fuel (heap w) (Some typei) = Done (Some raw) ->
  heap w !! typei = Some typei_v ->
  heap w !! raw = Some raw_typei ->
  rpct_validate_type_check rpc_get_type_name typei_v raw_typei obj errctx w
  = Done check ->
  rpct_validate_instance rpc_get_type_name rpc_find_class_handler
    fuel typei obj errctx w
  = match check with
    | Rejected errctx' => Done (false, errctx', w)
    | GotoStep3 =>
        match rpct_typei.type raw_typei with
        | None => Crash
        | Some type =>
            match rpc_find_class_handler (rpct_type.clazz type) with
            | None => Crash
            | Some validate_fn => validate_fn raw obj errctx w
            end
        end
    end.
Proof.
  intros Hunwind Htypei Hraw Hcheck. unfold rpct_validate_instance.
  rewrite Hunwind. cbn [run_bind]. rewrite Htypei, Hraw, Hcheck. reflexivity.
Qed.


(** X10.  An instance whose unwound type is the builtin "any" lets every
    object through the type check, annotated or not: the verdict is the
    verdict of the class validator. *)
Theorem rpct_validate_instance_any (fuel : nat) (typei raw : typei_ptr)
    (typei_v raw_typei : rpct_typei.t) (any_type : rpct_type.t)
    (obj : rpc_object) (errctx : rpct_error_context.t) (w : world) :
  rpct_unwind_typei fuel (heap w) (Some typei) = Done (Some raw) ->
  heap w !! typei = Some typei_v ->
  heap w !! raw = Some raw_typei ->
  rpct_typei.type raw_typei = Some any_type ->
  rpct_type.name any_type = "any" ->
  rpct_typei.canonical_form raw_typei = Some "any" ->
  (forall p, ro_typei obj = Some p -> is_Some (heap w !! p)) ->
  rpct_validate_instance rpc_get_type_name rpc_find_class_handler
    fuel typei obj errctx w
  = match rpc_find_class_handler (rpct_type.clazz any_type) with
    | None => Crash
    | Some validate_fn => validate_fn raw obj errctx w
    end.
Proof.
  intros Hunwind Htypei Hraw Hty Hname Hcf Halloc.
  assert (Hcheck :
    rpct_validate_type_check rpc_get_type_name typei_v raw_typei obj errctx w
    = Done GotoStep3).
  { unfold rpct_validate_type_check.
    destruct (ro_typei obj) as [p|] eqn:Hobj.
    - destruct (Halloc p eq_refl) as [obj_typei Hp]. rewrite Hp.
      unfold rpct_type_is_compatible. rewrite Hty, Hname. reflexivity.
    - rewrite Hcf. reflexivity. }
  rewrite (rpct_validate_instance_after_check fuel typei raw typei_v raw_typei
             obj errctx w _ Hunwind Htypei Hraw Hcheck).
  rewrite Hty. reflexivity.
Qed.

(** X11.  An object made by [rpct_newi] for an instance keeps the tag and
    the value of the original, is annotated with an instance of a type that
    is not a typedef, and passes the type check against the instance it was
    made for: validating it comes to the class validator of the unwound
    type. *)
Theorem rpct_newi_validates (fuel : nat) (typei : typei_ptr)
    (object object' : rpc_object) (w w' : world) :
  rpct_newi fuel (Some typei) (Some object) w = Done (Some object', w') ->
  exists raw raw_typei type,
    rpct_get_typei (Some object') = Some raw /\
    ro_type object' = ro_type object /\
    ro_value object' = ro_value object /\
    context w' = context w /\
    heap w' !! raw = Some raw_typei /\
    rpct_typei.type raw_typei = Some type /\
    rpct_type.clazz type <> RPC_TYPING_TYPEDEF /\
    forall errctx,
      rpct_validate_instance rpc_get_type_name rpc_find_class_handler
        fuel typei object' errctx w'
      = match rpc_find_class_handler (rpct_type.clazz type) with
        | None => Crash
        | Some validate_fn => validate_fn raw object' errctx w'
        end.
Proof.
  unfold rpct_newi, rpc_copy.
  destruct (rpct_unwind_typei fuel (heap w) (Some typei)) as [[raw|]| |] eqn:Hunwind;
    cbn [run_bind]; try discriminate.
  unfold rpct_typei_retain.
  destruct (heap w !! raw) as [ti0|] eqn:Hraw; cbn [run_bind]; [|discriminate].
  intros [= <- <-].
  destruct (rpct_unwind_typei_done (heap w) fuel (Some typei) raw Hunwind)
    as ((ti & type & Hti & Hty & Hcls) & _ & _).
  rewrite Hraw in Hti. injection Hti as <-.
  set (ti1 := set_refcnt (int32_wrap (rpct_typei.refcnt ti0 + 1)) ti0).
  exists raw, ti1, type.
  split; [reflexivity|]. split; [reflexivity|]. split; [reflexivity|].
  split; [reflexivity|].
  split; [cbn; apply lookup_insert_eq|].
  split; [exact Hty|]. split; [exact Hcls|].
  intros errctx.
  assert (Hunwind' :
    rpct_unwind_typei fuel (<[raw := ti1]> (heap w)) (Some typei)
    = Done (Some raw)).
  { rewrite <- Hunwind. symmetry.
    apply rpct_unwind_typei_same_types, same_types_set_refcnt, Hraw. }
  assert (Htypei : exists typei_v, <[raw := ti1]> (heap w) !! typei = Some typei_v).
  { destruct (decide (raw = typei)) as [<-|Hne].
    - eexists. apply lookup_insert_eq.
    - rewrite lookup_insert_ne by exact Hne.
      rewrite rpct_unwind_typei_unfold in Hunwind.
      destruct (heap w !! typei) as [tv|]; [eauto | discriminate]. }
  destruct Htypei as [typei_v Htypei].
  assert (Hcheck : forall obj',
    ro_typei obj' = Some raw ->
    rpct_validate_type_check rpc_get_type_name typei_v ti1 obj' errctx
      (set_heap (<[raw := ti1]> (heap w)) w)
    = Done GotoStep3).
  { intros obj' Hobj'. unfold rpct_validate_type_check. rewrite Hobj'.
    cbn [heap set_heap]. rewrite lookup_insert_eq.
    rewrite (rpct_type_is_compatible_refl ti1 type Hty). reflexivity. }
  match goal with
  | |- rpct_validate_instance _ _ _ _ ?o _ ?w1 = _ =>
      rewrite (rpct_validate_instance_after_check fuel typei raw typei_v ti1
                 o errctx w1 GotoStep3
                 Hunwind' Htypei (lookup_insert_eq _ _ _) (Hcheck o eq_refl))
  end.
  change (rpct_typei.type ti1) with (rpct_typei.type ti0).
  rewrite Hty. reflexivity.
Qed.

(** The walk of [rpct_validate_args] over the array is the validation of
    the items paired with the declared arguments from [idx] on. *)
Lemma rpct_validate_args_block_zip (fuel : nat)
    (arguments : list rpct_argument.t) (items : list rpc_object) :
  forall (idx : nat) (st : rpct_error_context.t * bool * world),
    run_bind (rpc_array_apply_from idx items
                (rpct_validate_args_block rpc_get_type_name rpc_find_class_handler
                   fuel arguments) st)
             (fun r => Done (snd r))
    = validate_all rpc_get_type_name rpc_find_class_handler fuel
        (zip (drop idx arguments) items) st.
Proof.
  induction items as [|v rest IH]; intros idx st.
  - destruct (drop idx arguments); reflexivity.
  - cbn [rpc_array_apply_from]. unfold rpct_validate_args_block at 1.
    destruct st as [[errctx valid] w].
    destruct (arguments !! idx) as [arg|] eqn:Harg.
    + rewrite (drop_S _ _ _ Harg). cbn [zip zip_with validate_all].
      apply lookup_lt_Some in Harg as Hlt.
      rewrite (proj2 (Nat.leb_gt _ _) Hlt).
      destruct (rpct_validate_instance rpc_get_type_name rpc_find_class_handler
                  fuel (rpct_argument.type arg) v errctx w)
        as [[[ok errctx'] w']| |]; cbn [run_bind]; try reflexivity.
      rewrite <- IH.
      replace (if negb ok then false else valid) with (valid && ok)
        by (destruct ok, valid; reflexivity).
      reflexivity.
    + apply lookup_ge_None in Harg as Hge.
      rewrite (proj2 (Nat.leb_le _ _) Hge). cbn [run_bind snd].
      rewrite drop_ge by exact Hge. reflexivity.
Qed.

(** X12.  [rpct_validate_args] validates the items of the array one after
    the other against the declared arguments at the same positions, as far
    as both go: the errors of all of them are collected, the verdict is the
    conjunction of the single verdicts, and a failure does not stop the
    validation of the items after it. *)
Theorem rpct_validate_args_pairs (fuel : nat) (func : rpct_if_member.t)
    (arguments : list rpct_argument.t) (args : rpc_object) (want_errors : bool)
    (w : world) :
  rpct_if_member.arguments func = Some arguments ->
  rpct_validate_args rpc_get_type_name rpc_find_class_handler
    fuel func args want_errors w
  = run_bind
      (validate_all rpc_get_type_name rpc_find_class_handler fuel
         (zip arguments (rpc_array_items args)) (empty_errctx, true, w))
      (fun st =>
         Done (snd (fst st),
               if want_errors
               then Some (rpct_errors_array
                            (rpct_error_context.errors (fst (fst st))))
               else None,
               snd st)).
Proof.
  intros Hargs. unfold rpct_validate_args, rpc_array_apply. rewrite Hargs.
  pose proof (rpct_validate_args_block_zip fuel arguments (rpc_array_items args)
                0%nat (empty_errctx, true, w)) as H.
  rewrite drop_0 in H. rewrite <- H. unfold empty_errctx.
  destruct (rpc_array_apply_from _ _ _ _) as [[flag [[errctx valid] w']]| |];
    reflexivity.
Qed.

(** X13.  Arguments that the caller left out are not missed: the declared
    arguments past the length of the array play no part, and a call without
    arguments passes the validation of any argument list with no error. *)
Theorem rpct_validate_args_missing (fuel : nat) (func func' : rpct_if_member.t)
    (arguments arguments' : list rpct_argument.t) (args : rpc_object)
    (want_errors : bool) (w : world) :
  rpct_if_member.arguments func = Some arguments ->
  rpct_if_member.arguments func' = Some arguments' ->
  take (length (rpc_array_items args)) arguments
  = take (length (rpc_array_items args)) arguments' ->
  rpct_validate_args rpc_get_type_name rpc_find_class_handler
    fuel func args want_errors w
  = rpct_validate_args rpc_get_type_name rpc_find_class_handler
      fuel func' args want_errors w /\
  (rpc_array_items args = [] ->
   rpct_validate_args rpc_get_type_name rpc_find_class_handler
     fuel func args want_errors w
   = Done (true,
           if want_errors then Some (rpct_errors_array []) else None,
           w)).
Proof.
  intros Hargs Hargs' Htake.
  assert (Hzip : forall (a : list rpct_argument.t) (items : list rpc_object),
            zip a items = zip (take (length items) a) items).
  { intros a items. revert a. induction items as [|v items IH]; intros [|x a];
      cbn [zip zip_with take length]; try reflexivity.
    f_equal. apply IH. }
  assert (Heq : forall f a,
    rpct_if_member.arguments f = Some a ->
    rpct_validate_args rpc_get_type_name rpc_find_class_handler
      fuel f args want_errors w
    = run_bind
        (validate_all rpc_get_type_name rpc_find_class_handler fuel
           (zip (take (length (rpc_array_items args)) a) (rpc_array_items args))
           (empty_errctx, true, w))
        (fun st =>
           Done (snd (fst st),
                 if want_errors
                 then Some (rpct_errors_array
                              (rpct_error_context.errors (fst (fst st))))
                 else None,
                 snd st))).
  { intros f a Hf. unfold rpct_validate_args, rpc_array_apply. rewrite Hf.
    pose proof (rpct_validate_args_block_zip fuel a (rpc_array_items args)
                  0%nat (empty_errctx, true, w)) as H.
    rewrite drop_0, Hzip in H. rewrite <- H. unfold empty_errctx.
    destruct (rpc_array_apply_from _ _ _ _) as [[flag [[errctx valid] w']]| |];
      reflexivity. }
  split.
  - rewrite (Heq func arguments Hargs), (Heq func' arguments' Hargs'), Htake.
    reflexivity.
  - intros Hnil. rewrite (Heq func arguments Hargs), Hnil. reflexivity.
Qed.

(** X14.  The pre-call hook answers nothing and leaves the call as it is
    when no loaded interface declares the member, and when the arguments
    pass the validation. *)
Theorem rpct_pre_call_hook_silent (fuel : nat) (ic : rpc_inbound_call)
    (args : rpc_object) (w : world) :
  (rpct_find_if_member (ric_interface ic) (ric_name ic) w = None ->
   rpct_pre_call_hook rpc_get_type_name rpc_find_class_handler fuel ic args w
   = Done (ic, w)) /\
  (forall member errors w',
     rpct_find_if_member (ric_interface ic) (ric_name ic) w = Some member ->
     rpct_validate_args rpc_get_type_name rpc_find_class_handler
       fuel member args true w = Done (true, errors, w') ->
     rpct_pre_call_hook rpc_get_type_name rpc_find_class_handler fuel ic args w
     = Done (ic, w')).
Proof.
  split.
  - intros Hnone. unfold rpct_pre_call_hook. rewrite Hnone. reflexivity.
  - intros member errors w' Hmember Hvalid. unfold rpct_pre_call_hook.
    rewrite Hmember, Hvalid. reflexivity.
Qed.

End MoreValidateFacts.


Lemma rpct_validate_instance_any_witness :
  rpct_validate_instance sample_type_name accept_all_handler
    1 0%nat (rpc_int64_of_typei 1%nat 3) empty_errctx any_world
  = Done (true, empty_errctx, any_world).
Proof.
  apply (rpct_validate_instance_any sample_type_name accept_all_handler
           1 0%nat 0%nat _ _ (builtin_type "any") (rpc_int64_of_typei 1%nat 3)
           empty_errctx any_world eq_refl eq_refl eq_refl eq_refl eq_refl eq_refl).
  intros p [= <-]. eexists. reflexivity.
Defined.

Lemma rpct_newi_validates_witness :
  exists object' w',
    rpct_newi 3 (Some 2%nat) (Some (rpc_int64_create 3)) calc_world
    = Done (Some object', w') /\
    exists raw raw_typei type,
      rpct_get_typei (Some object') = Some raw /\
      ro_type object' = RPC_TYPE_INT64 /\
      ro_value object' = rv_i 3 /\
      context w' = context calc_world /\
      heap w' !! raw = Some raw_typei /\
      rpct_typei.type raw_typei = Some type /\
      rpct_type.clazz type <> RPC_TYPING_TYPEDEF /\
      forall errctx,
        rpct_validate_instance sample_type_name accept_all_handler
          3 2%nat object' errctx w'
        = match accept_all_handler (rpct_type.clazz type) with
          | None => Crash
          | Some validate_fn => validate_fn raw object' errctx w'
          end.
Proof.
  eexists _, _. split; [reflexivity|].
  apply (rpct_newi_validates sample_type_name accept_all_handler
           3 2%nat (rpc_int64_create 3) _ calc_world _ eq_refl).
Defined.

Lemma rpct_validate_args_pairs_witness :
  rpct_validate_args sample_type_name accept_all_handler
    3 add_method (ric_args add_call) true calc_world
  = run_bind
      (validate_all sample_type_name accept_all_handler 3
         (zip [ {| rpct_argument.name := "a"; rpct_argument.description := None;
                   rpct_argument.type := 0%nat |};
                {| rpct_argument.name := "b"; rpct_argument.description := None;
                   rpct_argument.type := 0%nat |} ]
              (rpc_array_items (ric_args add_call)))
         (empty_errctx, true, calc_world))
      (fun st =>
         Done (snd (fst st),
               Some (rpct_errors_array (rpct_error_context.errors (fst (fst st)))),
               snd st)).
Proof.
  exact (rpct_validate_args_pairs sample_type_name accept_all_handler
           3 add_method _ (ric_args add_call) true calc_world eq_refl).
Defined.

Lemma rpct_validate_args_missing_witness :
  rpct_validate_args sample_type_name accept_all_handler
    3 add_method (rpc_array_of [rpc_string_create "x"]) true calc_world
  = rpct_validate_args sample_type_name accept_all_handler
      3 neg_method (rpc_array_of [rpc_string_create "x"]) true calc_world /\
  rpct_validate_args sample_type_name accept_all_handler
    3 add_method (rpc_array_of []) true calc_world
  = Done (true, Some (rpct_errors_array []), calc_world).
Proof.
  split.
  - exact (proj1 (rpct_validate_args_missing sample_type_name accept_all_handler
                    3 add_method neg_method _ _
                    (rpc_array_of [rpc_string_create "x"]) true calc_world
                    eq_refl eq_refl eq_refl)).
  - exact (proj2 (rpct_validate_args_missing sample_type_name accept_all_handler
                    3 add_method neg_method _ _
                    (rpc_array_of []) true calc_world
                    eq_refl eq_refl eq_refl) eq_refl).
Defined.

Lemma rpct_pre_call_hook_silent_witness :
  rpct_pre_call_hook sample_type_name accept_all_handler
    3 add_call (ric_args add_call) point_world
  = Done (add_call, point_world) /\
  rpct_pre_call_hook sample_type_name accept_all_handler
    3 add_call (rpc_array_of [rpc_int64_create 2; rpc_int64_create 3]) calc_world
  = Done (add_call, calc_world).
Proof.
  split.
  - exact (proj1 (rpct_pre_call_hook_silent sample_type_name accept_all_handler
                    3 add_call (ric_args add_call) point_world) eq_refl).
  - exact (proj2 (rpct_pre_call_hook_silent sample_type_name accept_all_handler
                    3 add_call
                    (rpc_array_of [rpc_int64_create 2; rpc_int64_create 3])
                    calc_world)
             add_method (Some (rpct_errors_array [])) calc_world
             eq_refl eq_refl).
Defined.

(** ** Constraint validators *)

Section ValidatorFacts.

Variable rpc_get_type_name : rpc_type_t -> string.
Variable rpc_find_validator :
  string -> string ->
  option (rpc_object -> rpc_object -> typei_ptr -> rpct_error_context.t ->
          bool * rpct_error_context.t).
Variable constraints_iter : gmap string rpc_object -> list (string * rpc_object).

Lemma rpct_run_validators_loop_verdict (typename : string) (typei : typei_ptr)
    (obj : rpc_object) (errctx0 : rpct_error_context.t) :
  (forall key validate value e e',
     rpc_find_validator typename key = Some validate ->
     fst (validate obj value typei e) = fst (validate obj value typei e')) ->
  forall entries errctx valid,
    fst (rpct_run_validators_loop rpc_find_validator typename typei obj
           entries errctx valid)
    = valid &&
      forallb (fun entry =>
                 match rpc_find_validator typename (fst entry) with
                 | Some validate => fst (validate obj (snd entry) typei errctx0)
                 | None => false
                 end) entries.
Proof.
  intros Hindep. induction entries as [|[key value] rest IH]; intros errctx valid.
  - cbn. rewrite andb_true_r. reflexivity.
  - cbn [rpct_run_validators_loop forallb fst snd].
    destruct (rpc_find_validator typename key) as [validate|] eqn:Hfind.
    + rewrite <- (Hindep key validate value errctx errctx0 Hfind).
      destruct (validate obj value typei errctx) as [ok errctx'].
      rewrite IH. cbn [fst]. destruct ok, valid; reflexivity.
    + rewrite IH. cbn [andb]. rewrite andb_false_r. reflexivity.
Qed.

(** X15.  When the verdict of a validator does not depend on the errors
    recorded so far, [rpct_run_validators] accepts the object exactly when
    every constraint of the instance has a validator and that validator
    accepts: a constraint without a validator makes the object invalid, and
    no verdict is lost to a later one. *)
Theorem rpct_run_validators_verdict (typei : typei_ptr)
    (constraints : gmap string rpc_object) (obj : rpc_object)
    (errctx : rpct_error_context.t) :
  (forall key validate value e e',
     rpc_find_validator (rpc_get_type_name (ro_type obj)) key = Some validate ->
     fst (validate obj value typei e) = fst (validate obj value typei e')) ->
  fst (rpct_run_validators rpc_get_type_name rpc_find_validator constraints_iter
         typei constraints obj errctx)
  = forallb (constraint_accepted rpc_get_type_name rpc_find_validator
               typei obj errctx)
      (constraints_iter constraints).
Proof.
  intros Hindep. unfold rpct_run_validators.
  rewrite (rpct_run_validators_loop_verdict _ typei obj errctx Hindep).
  reflexivity.
Qed.

(** X16.  A constraint without a validator is reported: when validators
    only add to the recorded errors and keep the path, the errors after
    [rpct_run_validators] hold "Validator k not found", at the path of the
    context, for every constraint [k] of the instance that has no
    validator, and every error recorded before is still there. *)
Theorem rpct_run_validators_not_found (typei : typei_ptr)
    (constraints : gmap string rpc_object) (obj : rpc_object)
    (errctx : rpct_error_context.t) (key : string) (value : rpc_object) :
  (forall k validate v e,
     rpc_find_validator (rpc_get_type_name (ro_type obj)) k = Some validate ->
     rpct_error_context.path (snd (validate obj v typei e))
     = rpct_error_context.path e /\
     rpct_error_context.errors e
       `sublist_of` rpct_error_context.errors (snd (validate obj v typei e))) ->
  (key, value) ∈ constraints_iter constraints ->
  rpc_find_validator (rpc_get_type_name (ro_type obj)) key = None ->
  let r := rpct_run_validators rpc_get_type_name rpc_find_validator
             constraints_iter typei constraints obj errctx in
  fst r = false /\
  {| rpct_validation_error.path := rpct_error_context.path errctx;
     rpct_validation_error.message := "Validator " +:+ key +:+ " not found";
     rpct_validation_error.extra := None |}
    ∈ rpct_error_context.errors (snd r) /\
  rpct_error_context.errors errctx `sublist_of` rpct_error_context.errors (snd r).
Proof.
  intros Hgrow Hin Hnone. unfold rpct_run_validators.
  set (typename := rpc_get_type_name (ro_type obj)) in *.
  assert (Hloop : forall entries e valid,
    let r := rpct_run_validators_loop rpc_find_validator typename typei obj
               entries e valid in
    rpct_error_context.path (snd r) = rpct_error_context.path e /\
    rpct_error_context.errors e `sublist_of` rpct_error_context.errors (snd r) /\
    (valid = false -> fst r = false)).
  { induction entries as [|[k v] rest IH]; intros e valid.
    - cbn. split; [reflexivity|]. split; [reflexivity|]. auto.
    - cbn [rpct_run_validators_loop].
      destruct (rpc_find_validator typename k) as [validate|] eqn:Hfind.
      + destruct (Hgrow k validate v e Hfind) as [Hpath Hsub].
        destruct (validate obj v typei e) as [ok e'] eqn:Hv. cbn [snd] in *.
        destruct (IH e' (if negb ok then false else valid)) as (Hp & Hs & Hf).
        split; [congruence|]. split; [etrans; eassumption|].
        intros ->. apply Hf. destruct ok; reflexivity.
      + destruct (IH (rpct_add_error e None ("Validator " +:+ k +:+ " not found"))
                    false) as (Hp & Hs & Hf).
        split; [exact Hp|]. split; [|auto].
        etrans; [|exact Hs]. unfold rpct_add_error.
        cbn [rpct_error_context.errors]. apply sublist_inserts_r. reflexivity. }
  assert (Hmain : forall entries e valid,
    (key, value) ∈ entries ->
    let r := rpct_run_validators_loop rpc_find_validator typename typei obj
               entries e valid in
    fst r = false /\
    {| rpct_validation_error.path := rpct_error_context.path e;
       rpct_validation_error.message := "Validator " +:+ key +:+ " not found";
       rpct_validation_error.extra := None |}
      ∈ rpct_error_context.errors (snd r) /\
    rpct_error_context.errors e `sublist_of` rpct_error_context.errors (snd r)).
  { induction entries as [|[k v] rest IH]; intros e valid Hin';
      [inversion Hin'|].
    cbn [rpct_run_validators_loop].
    apply elem_of_cons in Hin' as [[= <- <-]|Hin'].
    - rewrite Hnone.
      destruct (Hloop rest
                  (rpct_add_error e None ("Validator " +:+ key +:+ " not found"))
                  false) as (Hp & Hs & Hf).
      split; [auto|]. split.
      + eapply elem_of_sublist; [|exact Hs].
        unfold rpct_add_error. cbn [rpct_error_context.errors].
        apply elem_of_app. right. apply list_elem_of_here.
      + etrans; [|exact Hs]. unfold rpct_add_error.
        cbn [rpct_error_context.errors]. apply sublist_inserts_r. reflexivity.
    - destruct (rpc_find_validator typename k) as [validate|] eqn:Hfind.
      + destruct (Hgrow k validate v e Hfind) as [Hpath Hsub].
        destruct (validate obj v typei e) as [ok e'] eqn:Hv. cbn [snd] in *.
        destruct (IH e' (if negb ok then false else valid) Hin') as (Hf & Hi & Hs).
        rewrite Hpath in Hi.
        split; [exact Hf|]. split; [exact Hi|]. etrans; eassumption.
      + destruct (IH (rpct_add_error e None ("Validator " +:+ k +:+ " not found"))
                    false Hin') as (Hf & Hi & Hs).
        split; [exact Hf|]. split; [exact Hi|].
        etrans; [|exact Hs]. unfold rpct_add_error.
        cbn [rpct_error_context.errors]. apply sublist_inserts_r. reflexivity. }
  apply Hmain, Hin.
Qed.

End ValidatorFacts.

Lemma sample_find_validator_some (typename key : string) validate :
  sample_find_validator typename key = Some validate ->
  validate
  = fun obj value (_ : typei_ptr) errctx =>
      match ro_value obj, ro_value value with
      | rv_i i, rv_i m =>
          if m <=? i then (true, errctx)
          else (false, rpct_add_error errctx None "Value too small")
      | _, _ => (false, rpct_add_error errctx None "Not an integer")
      end.
Proof.
  unfold sample_find_validator.
  destruct (String.eqb typename "int64" && String.eqb key "min");
    [intros [= <-]; reflexivity | discriminate].
Defined.

Lemma rpct_run_validators_verdict_witness :
  fst (rpct_run_validators sample_type_name sample_find_validator
         sample_constraints_iter 0%nat sample_constraints (rpc_int64_create 3)
         empty_errctx)
  = forallb (constraint_accepted sample_type_name sample_find_validator
               0%nat (rpc_int64_create 3) empty_errctx)
      (sample_constraints_iter sample_constraints).
Proof.
  apply (rpct_run_validators_verdict sample_type_name sample_find_validator
           sample_constraints_iter 0%nat sample_constraints
           (rpc_int64_create 3) empty_errctx).
  intros key validate value e e' Hfind.
  rewrite (sample_find_validator_some _ _ _ Hfind). cbn.
  destruct (ro_value value); try reflexivity.
  destruct (_ <=? 3); reflexivity.
Defined.

Lemma rpct_run_validators_not_found_witness :
  let r := rpct_run_validators sample_type_name sample_find_validator
             sample_constraints_iter 0%nat sample_constraints
             (rpc_int64_create 3) empty_errctx in
  fst r = false /\
  {| rpct_validation_error.path := "";
     rpct_validation_error.message := "Validator regex not found";
     rpct_validation_error.extra := None |}
    ∈ rpct_error_context.errors (snd r) /\
  rpct_error_context.errors empty_errctx
    `sublist_of` rpct_error_context.errors (snd r).
Proof.
  apply (rpct_run_validators_not_found sample_type_name sample_find_validator
           sample_constraints_iter 0%nat sample_constraints
           (rpc_int64_create 3) empty_errctx "regex" (rpc_string_create "a*")).
  - intros k validate v e Hfind.
    rewrite (sample_find_validator_some _ _ _ Hfind). cbn.
    destruct (ro_value v);
      try (split; [reflexivity | apply sublist_inserts_r; reflexivity]).
    destruct (_ <=? 3);
      (split; [reflexivity | try reflexivity; apply sublist_inserts_r; reflexivity]).
  - apply elem_of_map_to_list. reflexivity.
  - reflexivity.
Defined.

(** ** Index accessors in range *)

Lemma g_ptr_array_index_in_range {A} (array : list A) (index : Z) :
  0 <= index < Z.of_nat (length array) ->
  exists a, array !! Z.to_nat index = Some a /\
            g_ptr_array_index array index = Ptr a.
Proof.
  intros Hidx. unfold g_ptr_array_index.
  destruct (Z.ltb_spec index 0) as [|_]; [lia|].
  destruct (lookup_lt_is_Some_2 array (Z.to_nat index)) as [a Ha]; [lia|].
  exists a. rewrite Ha. split; reflexivity.
Qed.

(** X17.  Below the count that [rpct_type_get_generic_vars_count] reports,
    [rpct_type_get_generic_var] returns the variables of the type in the
    order of their declaration. *)
Theorem rpct_type_get_generic_var_in_range (type : rpct_type.t) (index : Z) :
  Z.of_nat (length (rpct_type.generic_vars type)) < 2 ^ 31 ->
  0 <= index < rpct_type_get_generic_vars_count type ->
  exists variable,
    rpct_type.generic_vars type !! Z.to_nat index = Some variable /\
    rpct_type_get_generic_var type index = Ptr variable.
Proof.
  intros Hlen. unfold rpct_type_get_generic_vars_count, rpct_type_get_generic_var.
  destruct (rpct_type.generic type); cbn [negb]; [|lia].
  rewrite int_of_guint_small by exact Hlen. intros Hidx.
  destruct (Z.ltb_spec index 0) as [|_]; [lia|].
  destruct (Z.gtb_spec index (Z.of_nat (length (rpct_type.generic_vars type))))
    as [|_]; [lia|].
  cbn [orb]. apply g_ptr_array_index_in_range. lia.
Qed.

Lemma rpct_type_get_generic_var_in_range_witness :
  exists variable,
    rpct_type.generic_vars pair_type !! Z.to_nat 1 = Some variable /\
    rpct_type_get_generic_var pair_type 1 = Ptr variable.
Proof.
  apply (rpct_type_get_generic_var_in_range pair_type 1).
  - vm_compute. reflexivity.
  - vm_compute. split; [discriminate | reflexivity].
Defined.

(** X18.  For a method with an argument array, the indices below
    [rpct_method_get_arguments_count] give the declared arguments in order,
    and the count is the length of the array. *)
Theorem rpct_method_get_argument_in_range (method : rpct_if_member.t)
    (arguments : list rpct_argument.t) (index : Z) :
  rpct_if_member.arguments method = Some arguments ->
  Z.of_nat (length arguments) < 2 ^ 31 ->
  rpct_method_get_arguments_count method = Done (Z.of_nat (length arguments)) /\
  (0 <= index < Z.of_nat (length arguments) ->
   exists argument,
     arguments !! Z.to_nat index = Some argument /\
     rpct_method_get_argument method index = Done (Ptr argument)).
Proof.
  intros Hargs Hlen.
  unfold rpct_method_get_arguments_count, rpct_method_get_argument.
  rewrite Hargs, int_of_guint_small by exact Hlen.
  split; [reflexivity|]. intros Hidx.
  destruct (Z.ltb_spec index 0) as [|_]; [lia|].
  destruct (Z.gtb_spec index (Z.of_nat (length arguments))) as [|_]; [lia|].
  cbn [orb].
  destruct (g_ptr_array_index_in_range arguments index Hidx) as (a & Ha & Hptr).
  exists a. rewrite Hptr. split; [exact Ha | reflexivity].
Qed.

Lemma rpct_method_get_argument_in_range_witness :
  rpct_method_get_arguments_count add_method = Done 2 /\
  exists argument,
    [ {| rpct_argument.name := "a"; rpct_argument.description := None;
         rpct_argument.type := 0%nat |};
      {| rpct_argument.name := "b"; rpct_argument.description := None;
         rpct_argument.type := 0%nat |} ] !! Z.to_nat 1 = Some argument /\
    rpct_method_get_argument add_method 1 = Done (Ptr argument).
Proof.
  destruct (rpct_method_get_argument_in_range add_method _ 1 eq_refl)
    as [Hcount Hget]; [vm_compute; reflexivity|].
  split; [exact Hcount | apply Hget; cbn; lia].
Defined.

(** ** Connections of a server *)

Lemma remove_link_absent (conn : rpc_connection) (l : list rpc_connection) :
  Forall (fun c => rco_addr c <> rco_addr conn) l -> remove_link conn l = None.
Proof.
  induction 1 as [|c l Hc _ IH]; cbn [remove_link]; [reflexivity|].
  rewrite (proj2 (Nat.eqb_neq _ _) Hc), IH. reflexivity.
Qed.

Lemma remove_link_first (conn c : rpc_connection) (l1 l2 : list rpc_connection) :
  Forall (fun c' => rco_addr c' <> rco_addr conn) l1 ->
  rco_addr c = rco_addr conn ->
  remove_link conn (l1 ++ c :: l2)%list = Some (l1 ++ l2)%list.
Proof.
  intros Hl1 Hc. induction Hl1 as [|c' l1 Hc' _ IH]; cbn [remove_link app].
  - rewrite (proj2 (Nat.eqb_eq _ _) Hc). reflexivity.
  - rewrite (proj2 (Nat.eqb_neq _ _) Hc'), IH. reflexivity.
Qed.

Lemma with_connections_same (s : rpc_server) :
  with_connections s (rs_connections s) = s.
Proof. destruct s. reflexivity. Qed.

(** X19.  [rpc_server_remove_connection] compares addresses: it returns -1
    and changes nothing when no connection of the server is the given one;
    otherwise it returns 0 and unlinks the first connection that is, and
    the connections before and after it keep their order. *)
Theorem rpc_server_remove_connection_first (server : rpc_server_t)
    (conn : rpc_connection) (s : rpc_server) (sw : server_world) :
  servers sw !! server = Some s ->
  (Forall (fun c => rco_addr c <> rco_addr conn) (rs_connections s) ->
   rpc_server_remove_connection server conn sw = Done (-1, sw)) /\
  (forall l1 c l2,
     rs_connections s = (l1 ++ c :: l2)%list ->
     Forall (fun c' => rco_addr c' <> rco_addr conn) l1 ->
     rco_addr c = rco_addr conn ->
     rpc_server_remove_connection server conn sw
     = Done (0, set_server server (with_connections s (l1 ++ l2)%list) sw)).
Proof.
  intros Hs. unfold rpc_server_remove_connection. rewrite Hs. split.
  - intros Habsent. rewrite (remove_link_absent conn _ Habsent). reflexivity.
  - intros l1 c l2 Hl Hl1 Hc. rewrite Hl, (remove_link_first conn c l1 l2 Hl1 Hc).
    reflexivity.
Qed.

(** X20.  On an open server, a connection that is accepted and then removed
    leaves the server as it was: both calls return 0, the connections are
    those from before, and what remains is the one item handed to the
    context, which announces the arrival. *)
Theorem rpc_server_accept_remove (server : rpc_server_t) (conn : rpc_connection)
    (s : rpc_server) (sw : server_world) :
  servers sw !! server = Some s ->
  rs_closed s = false ->
  Forall (fun c => rco_addr c <> rco_addr conn) (rs_connections s) ->
  exists sw1 sw2,
    rpc_server_accept server conn sw = Done (0, sw1) /\
    server_connections server sw1 = (rs_connections s ++ [conn])%list /\
    rpc_server_remove_connection server conn sw1 = Done (0, sw2) /\
    servers sw2 = servers sw /\
    rcx_servers sw2 = rcx_servers sw /\
    rcx_dispatched sw2
    = (rcx_dispatched sw ++
       [ {| rd_conn := conn; rd_code := RPC_CONNECTION_ARRIVED;
            rd_args := server |} ])%list.
Proof.
  intros Hs Hopen Habsent. unfold rpc_server_accept. rewrite Hs, Hopen.
  eexists _, _. split; [reflexivity|].
  split.
  { unfold server_connections. cbn [servers rpc_context_dispatch set_server].
    rewrite lookup_insert_eq. reflexivity. }
  unfold rpc_server_remove_connection.
  cbn [servers rpc_context_dispatch set_server]. rewrite lookup_insert_eq.
  cbn [rs_connections].
  rewrite (remove_link_first conn conn (rs_connections s) [] Habsent eq_refl).
  split; [reflexivity|].
  cbn [servers set_server rcx_servers rcx_dispatched rs_uri rs_closed rs_teardown].
  split; [|split; reflexivity].
  unfold rpc_context_dispatch, set_server. cbn [servers].
  rewrite insert_insert_eq, app_nil_r, <- Hopen.
  change (<[server := with_connections s (rs_connections s)]> (servers sw)
          = servers sw).
  rewrite with_connections_same. apply insert_id, Hs.
Qed.

Lemma rpc_server_remove_connection_first_witness :
  rpc_server_remove_connection 7%nat conn42 two_servers = Done (-1, two_servers) /\
  rpc_server_remove_connection 7%nat conn41 two_servers
  = Done (0, set_server 7%nat
               (with_connections
                  {| rs_uri := "unix:///tmp/a"; rs_closed := false;
                     rs_connections := [conn41]; rs_teardown := Some 0 |} [])
               two_servers).
Proof.
  split.
  - apply (proj1 (rpc_server_remove_connection_first 7%nat conn42 _ two_servers
                    eq_refl)).
    repeat constructor. cbn. lia.
  - apply (proj2 (rpc_server_remove_connection_first 7%nat conn41 _ two_servers
                    eq_refl) [] conn41 []); [reflexivity | constructor | reflexivity].
Defined.

Lemma rpc_server_accept_remove_witness :
  exists sw1 sw2,
    rpc_server_accept 7%nat conn42 two_servers = Done (0, sw1) /\
    server_connections 7%nat sw1 = [conn41; conn42] /\
    rpc_server_remove_connection 7%nat conn42 sw1 = Done (0, sw2) /\
    servers sw2 = servers two_servers /\
    rcx_servers sw2 = rcx_servers two_servers /\
    rcx_dispatched sw2
    = [ {| rd_conn := conn42; rd_code := RPC_CONNECTION_ARRIVED;
           rd_args := 7%nat |} ].
Proof.
  apply (rpc_server_accept_remove 7%nat conn42 _ two_servers eq_refl eq_refl).
  repeat constructor. cbn. lia.
Defined.

(** ** More on closing a server *)

Lemma rpc_server_close_absent (server : rpc_server_t)
    (schedule : list server_action) (sw : server_world) :
  server ∉ rcx_servers sw ->
  rpc_server_close server schedule sw = Done (CloseReturned (-1) sw).
Proof.
  intros Habsent. unfold rpc_server_close.
  pose proof (g_ptr_array_remove_present (rcx_servers sw) server) as Hp.
  destruct (g_ptr_array_remove (rcx_servers sw) server) as [present rest].
  cbn [fst] in Hp. destruct present; [|reflexivity].
  exfalso. apply Habsent, Hp. reflexivity.
Qed.

Lemma rpc_server_close_present (server : rpc_server_t)
    (schedule : list server_action) (s : rpc_server) (sw : server_world) :
  server ∈ rcx_servers sw ->
  servers sw !! server = Some s ->
  rpc_server_close server schedule sw
  = match rs_connections s with
    | [] => Done (CloseReturned (teardown_status s) (rpc_server_closing server s sw))
    | _ :: _ =>
        rpc_server_close_wait server (teardown_status s) schedule
          (rpc_server_closing server s sw)
    end.
Proof.
  intros Hpresent Hs. unfold rpc_server_close, rpc_server_closing.
  pose proof (g_ptr_array_remove_present (rcx_servers sw) server) as Hp.
  destruct (g_ptr_array_remove (rcx_servers sw) server) as [present rest].
  cbn [fst snd] in *. rewrite (proj2 Hp Hpresent). cbn [negb servers].
  rewrite Hs. cbn [rs_connections rs_teardown].
  destruct (rs_connections s) as [|c cs]; [|reflexivity].
  cbn [filter map]. rewrite app_nil_r. reflexivity.
Qed.

Lemma rpc_server_closing_closed (server : rpc_server_t) (s : rpc_server)
    (sw : server_world) :
  closed_at server (rpc_server_closing server s sw).
Proof.
  eexists. cbn [servers rpc_server_closing]. rewrite lookup_insert_eq.
  split; reflexivity.
Qed.

Lemma server_step_aborted (server : rpc_server_t) (a : server_action)
    (sw sw' : server_world) (ret : Z) :
  server_step server a sw = Done (ret, sw') -> aborted sw' = aborted sw.
Proof.
  destruct a as [conn|conn]; cbn [server_step].
  - unfold rpc_server_accept. destruct (servers sw !! server) as [s|]; [|discriminate].
    destruct (rs_closed s); intros [= _ <-]; reflexivity.
  - unfold rpc_server_remove_connection.
    destruct (servers sw !! server) as [s|]; [|discriminate].
    destruct (remove_link conn (rs_connections s)); intros [= _ <-]; reflexivity.
Qed.

(** How the wait of [rpc_server_close] ends. *)
Lemma rpc_server_close_wait_result (server : rpc_server_t) (ret : Z)
    (schedule : list server_action) :
  forall sw,
    closed_at server sw ->
    exists r,
      rpc_server_close_wait server ret schedule sw = Done r /\
      closed_at server (close_world r) /\
      rcx_servers (close_world r) = rcx_servers sw /\
      aborted (close_world r) = aborted sw /\
      match r with
      | CloseReturned ret' sw' => ret' = ret /\ server_connections server sw' = []
      | CloseWaiting sw' => server_connections server sw' <> []
      end.
Proof.
  induction schedule as [|a rest IH]; intros sw Hclosed;
    cbn [rpc_server_close_wait]; pose proof Hclosed as (s & Hs & Hflag);
    rewrite Hs.
  - destruct (rs_connections s) as [|c cs] eqn:Hconns.
    + exists (CloseReturned ret sw). repeat split; auto.
      unfold server_connections. rewrite Hs. exact Hconns.
    + exists (CloseWaiting sw). repeat split; auto.
      cbn. unfold server_connections. rewrite Hs, Hconns. discriminate.
  - destruct (rs_connections s) as [|c cs] eqn:Hconns.
    + exists (CloseReturned ret sw). repeat split; auto.
      unfold server_connections. rewrite Hs. exact Hconns.
    + destruct (server_step_closed server a sw Hclosed)
        as (r1 & sw1 & Hstep & Hc1 & Hl1 & _ & _).
      rewrite Hstep. cbn [run_bind].
      destruct (IH sw1 Hc1) as (r & Hwait & Hc & Hl & Ha & Hr).
      exists r. split; [exact Hwait|]. split; [exact Hc|].
      split; [congruence|]. split; [|exact Hr].
      rewrite Ha. eapply server_step_aborted, Hstep.
Qed.

(** X21.  For a server on the list of its context, [rpc_server_close]
    tells every connection that has an [rco_abort] callback to abort, once
    and in the order of the list, and it returns only when the server has
    no connection left: the status is then that of the teardown hook, or 0
    without one.  While a connection is left it is still waiting. *)
Theorem rpc_server_close_returns_drained (server : rpc_server_t)
    (schedule : list server_action) (s : rpc_server) (sw : server_world) :
  server ∈ rcx_servers sw ->
  servers sw !! server = Some s ->
  exists r,
    rpc_server_close server schedule sw = Done r /\
    aborted (close_world r)
    = (aborted sw ++
       map rco_addr (filter (fun c => rco_abort c = true) (rs_connections s)))%list /\
    match r with
    | CloseReturned ret sw' =>
        ret = teardown_status s /\ server_connections server sw' = []
    | CloseWaiting sw' => server_connections server sw' <> []
    end.
Proof.
  intros Hpresent Hs.
  rewrite (rpc_server_close_present server schedule s sw Hpresent Hs).
  destruct (rs_connections s) as [|c cs] eqn:Hconns.
  - eexists. split; [reflexivity|]. cbn [close_world rpc_server_closing aborted].
    rewrite Hconns. split; [reflexivity|]. split; [reflexivity|].
    unfold server_connections. cbn [servers rpc_server_closing].
    rewrite lookup_insert_eq. exact Hconns.
  - destruct (rpc_server_close_wait_result server (teardown_status s) schedule
                (rpc_server_closing server s sw)
                (rpc_server_closing_closed server s sw))
      as (r & Hwait & _ & _ & Ha & Hr).
    exists r. split; [exact Hwait|]. split; [|exact Hr].
    rewrite Ha. cbn [rpc_server_closing aborted]. rewrite Hconns. reflexivity.
Qed.

Lemma rpc_server_close_returns_drained_witness :
  exists r,
    rpc_server_close 7%nat [ActRemove conn41] two_servers = Done r /\
    aborted (close_world r) = [41%nat] /\
    match r with
    | CloseReturned ret sw' => ret = 0 /\ server_connections 7%nat sw' = []
    | CloseWaiting sw' => server_connections 7%nat sw' <> []
    end.
Proof.
  apply (rpc_server_close_returns_drained 7%nat [ActRemove conn41]
           {| rs_uri := "unix:///tmp/a"; rs_closed := false;
              rs_connections := [conn41]; rs_teardown := Some 0 |} two_servers).
  - apply list_elem_of_here.
  - reflexivity.
Defined.

Lemma remove_link_perm (c : rpc_connection) (l : list rpc_connection) :
  c ∈ l -> NoDup (map rco_addr l) ->
  exists rest, remove_link c l = Some rest /\ l ≡ₚ c :: rest.
Proof.
  induction l as [|x l IH]; intros Hin Hnd; [inversion Hin|].
  cbn [remove_link]. cbn [map] in Hnd. apply NoDup_cons in Hnd as [Hx Hnd].
  destruct (Nat.eqb_spec (rco_addr x) (rco_addr c)) as [Heq|Hne].
  - exists l. split; [reflexivity|].
    apply elem_of_cons in Hin as [->|Hin]; [reflexivity|].
    exfalso. apply Hx. rewrite Heq. apply list_elem_of_fmap.
    exists c. split; [reflexivity | exact Hin].
  - apply elem_of_cons in Hin as [->|Hin]; [congruence|].
    destruct (IH Hin Hnd) as (rest & Hrm & Hperm).
    exists (x :: rest). rewrite Hrm. split; [reflexivity|].
    rewrite Hperm. apply Permutation_swap.
Qed.

Lemma rpc_server_close_wait_drains (server : rpc_server_t) (ret : Z)
    (rest : list server_action) (l : list rpc_connection) :
  forall sw s,
    servers sw !! server = Some s ->
    rs_connections s ≡ₚ l ->
    NoDup (map rco_addr l) ->
    exists sw',
      rpc_server_close_wait server ret (map ActRemove l ++ rest) sw
      = Done (CloseReturned ret sw') /\
      server_connections server sw' = [].
Proof.
  induction l as [|c l IH]; intros sw s Hs Hperm Hnd.
  - apply Permutation_nil_r in Hperm. exists sw. split.
    + cbn [map app]. destruct rest; cbn [rpc_server_close_wait];
        rewrite Hs, Hperm; reflexivity.
    + unfold server_connections. rewrite Hs. exact Hperm.
  - cbn [map app rpc_server_close_wait]. rewrite Hs.
    destruct (rs_connections s) as [|c0 cs] eqn:Hconns.
    { symmetry in Hperm. apply Permutation_nil_r in Hperm. discriminate. }
    cbn [server_step]. unfold rpc_server_remove_connection. rewrite Hs, Hconns.
    destruct (remove_link_perm c (c0 :: cs)) as (rest' & Hrm & Hperm').
    { rewrite Hperm. apply list_elem_of_here. }
    { rewrite Hperm. exact Hnd. }
    rewrite Hrm. cbn [run_bind].
    cbn [map] in Hnd. apply NoDup_cons in Hnd as [_ Hnd].
    eapply IH; [| |exact Hnd].
    + cbn [servers set_server]. apply lookup_insert_eq.
    + cbn [rs_connections]. eapply Permutation_cons_inv.
      rewrite <- Hperm'. exact Hperm.
Qed.

(** X22.  [rpc_server_close] does return once every connection of the
    server was removed: when the connections are distinct and the other
    threads remove each of them, in whatever order, the call returns the
    status of the teardown hook and the server has no connection left. *)
Theorem rpc_server_close_drains (server : rpc_server_t)
    (removed : list rpc_connection) (rest : list server_action)
    (s : rpc_server) (sw : server_world) :
  server ∈ rcx_servers sw ->
  servers sw !! server = Some s ->
  rs_connections s ≡ₚ removed ->
  NoDup (map rco_addr removed) ->
  exists sw',
    rpc_server_close server (map ActRemove removed ++ rest) sw
    = Done (CloseReturned (teardown_status s) sw') /\
    server_connections server sw' = [].
Proof.
  intros Hpresent Hs Hperm Hnd.
  rewrite (rpc_server_close_present server _ s sw Hpresent Hs).
  destruct (rs_connections s) as [|c cs] eqn:Hconns.
  - eexists. split; [reflexivity|].
    unfold server_connections. cbn [servers rpc_server_closing].
    rewrite lookup_insert_eq. exact Hconns.
  - eapply rpc_server_close_wait_drains; [| |exact Hnd].
    + cbn [servers rpc_server_closing]. apply lookup_insert_eq.
    + cbn [rs_connections]. rewrite Hconns. exact Hperm.
Qed.

(** X23.  A server is closed once: with no server twice on the list of the
    context, a second [rpc_server_close] returns -1 and changes nothing,
    however the first one ended. *)
Theorem rpc_server_close_twice (server : rpc_server_t)
    (schedule : list server_action) (sw : server_world) :
  NoDup (rcx_servers sw) ->
  is_Some (servers sw !! server) ->
  exists r,
    rpc_server_close server schedule sw = Done r /\
    forall schedule',
      rpc_server_close server schedule' (close_world r)
      = Done (CloseReturned (-1) (close_world r)).
Proof.
  intros Hnd [s Hs].
  destruct (decide (server ∈ rcx_servers sw)) as [Hpresent|Habsent].
  - assert (Hgoal : exists r,
      rpc_server_close server schedule sw = Done r /\
      rcx_servers (close_world r)
      = snd (g_ptr_array_remove (rcx_servers sw) server)).
    { rewrite (rpc_server_close_present server schedule s sw Hpresent Hs).
      destruct (rs_connections s) as [|c cs].
      - eexists. split; reflexivity.
      - destruct (rpc_server_close_wait_result server (teardown_status s) schedule
                    (rpc_server_closing server s sw)
                    (rpc_server_closing_closed server s sw))
          as (r & Hwait & _ & Hl & _).
        exists r. split; [exact Hwait | exact Hl]. }
    destruct Hgoal as (r & Hclose & Hlist).
    exists r. split; [exact Hclose|]. intros schedule'.
    apply rpc_server_close_absent. rewrite Hlist.
    apply g_ptr_array_remove_NoDup, Hnd.
  - exists (CloseReturned (-1) sw).
    split; [apply rpc_server_close_absent, Habsent|].
    intros schedule'. apply rpc_server_close_absent, Habsent.
Qed.

(** X24.  After [rpc_server_close], whatever else happens to the server,
    [rpc_server_broadcast_event] sends nothing. *)
Theorem rpc_server_broadcast_event_after_close (server : rpc_server_t)
    (schedule actions : list server_action) (sw : server_world)
    (path interface name : string) (args : rpc_object) :
  server ∈ rcx_servers sw ->
  is_Some (servers sw !! server) ->
  exists r rets sw',
    rpc_server_close server schedule sw = Done r /\
    server_steps server actions (close_world r) = Done (rets, sw') /\
    rpc_server_broadcast_event server path interface name args sw' = Done [].
Proof.
  intros Hpresent [s Hs].
  assert (Hgoal : exists r,
    rpc_server_close server schedule sw = Done r /\
    closed_at server (close_world r)).
  { rewrite (rpc_server_close_present server schedule s sw Hpresent Hs).
    destruct (rs_connections s) as [|c cs].
    - eexists. split; [reflexivity | apply rpc_server_closing_closed].
    - destruct (rpc_server_close_wait_result server (teardown_status s) schedule
                  (rpc_server_closing server s sw)
                  (rpc_server_closing_closed server s sw))
        as (r & Hwait & Hc & _).
      exists r. split; [exact Hwait | exact Hc]. }
  destruct Hgoal as (r & Hclose & Hclosed).
  destruct (server_steps_closed server actions (close_world r) Hclosed)
    as (rets & sw' & Hsteps & (s' & Hs' & Hflag) & _).
  exists r, rets, sw'. split; [exact Hclose|]. split; [exact Hsteps|].
  unfold rpc_server_broadcast_event. rewrite Hs', Hflag. reflexivity.
Qed.

(** X25.  On an open server an event goes to every connection once, in the
    order in which the connections were accepted: after the accepts of
    [conns], each of which returns 0, the event is sent to the connections
    the server had, then to [conns]. *)
Theorem rpc_server_broadcast_event_accepted (server : rpc_server_t)
    (conns : list rpc_connection) (s : rpc_server) (sw : server_world)
    (path interface name : string) (args : rpc_object) :
  servers sw !! server = Some s ->
  rs_closed s = false ->
  exists sw',
    server_steps server (map ActAccept conns) sw
    = Done (map (fun conn => (ActAccept conn, 0)) conns, sw') /\
    rpc_server_broadcast_event server path interface name args sw'
    = Done (map (fun conn =>
                   {| se_conn := rco_addr conn; se_path := path;
                      se_interface := interface; se_name := name;
                      se_args := args |})
                (rs_connections s ++ conns)).
Proof.
  revert s sw. induction conns as [|conn conns IH]; intros s sw Hs Hopen.
  - exists sw. split; [reflexivity|].
    unfold rpc_server_broadcast_event. rewrite Hs, Hopen, app_nil_r. reflexivity.
  - cbn [map server_steps server_step]. unfold rpc_server_accept.
    rewrite Hs, Hopen. cbn [run_bind].
    match goal with
    | |- context [server_steps _ _ ?sw1] =>
        destruct (IH (with_connections s (rs_connections s ++ [conn])) sw1)
          as (sw' & Hsteps & Hsend)
    end.
    + cbn [servers rpc_context_dispatch set_server].
      rewrite lookup_insert_eq, <- Hopen. reflexivity.
    + exact Hopen.
    + exists sw'. rewrite Hsteps. cbn [run_bind]. split; [reflexivity|].
      rewrite Hsend. cbn [with_connections rs_connections].
      rewrite <- app_assoc. reflexivity.
Qed.

Lemma rpc_server_close_drains_witness :
  exists sw',
    rpc_server_close 7%nat
      (map ActRemove [conn42; conn41] ++ [ActAccept conn41]) busy_world
    = Done (CloseReturned 0 sw') /\
    server_connections 7%nat sw' = [].
Proof.
  apply (rpc_server_close_drains 7%nat [conn42; conn41] [ActAccept conn41]
           busy_server busy_world).
  - apply list_elem_of_here.
  - reflexivity.
  - apply Permutation_swap.
  - apply (bool_decide_unpack _). vm_compute. exact I.
Defined.

Lemma rpc_server_close_twice_witness :
  exists r,
    rpc_server_close 7%nat [] two_servers = Done r /\
    forall schedule',
      rpc_server_close 7%nat schedule' (close_world r)
      = Done (CloseReturned (-1) (close_world r)).
Proof.
  apply (rpc_server_close_twice 7%nat [] two_servers).
  - apply (bool_decide_unpack _). vm_compute. exact I.
  - eexists. reflexivity.
Defined.

Lemma rpc_server_broadcast_event_after_close_witness :
  exists r rets sw',
    rpc_server_close 7%nat [] two_servers = Done r /\
    server_steps 7%nat [ActAccept conn42] (close_world r) = Done (rets, sw') /\
    rpc_server_broadcast_event 7%nat "/" "com.ex.Calc" "changed"
      (rpc_array_of []) sw' = Done [].
Proof.
  apply (rpc_server_broadcast_event_after_close 7%nat [] [ActAccept conn42]
           two_servers "/" "com.ex.Calc" "changed" (rpc_array_of [])).
  - apply list_elem_of_here.
  - eexists. reflexivity.
Defined.

Lemma rpc_server_broadcast_event_accepted_witness :
  exists sw',
    server_steps 7%nat [ActAccept conn42] two_servers
    = Done ([(ActAccept conn42, 0)], sw') /\
    rpc_server_broadcast_event 7%nat "/" "com.ex.Calc" "changed"
      (rpc_array_of []) sw'
    = Done [ {| se_conn := 41%nat; se_path := "/"; se_interface := "com.ex.Calc";
                se_name := "changed"; se_args := rpc_array_of [] |};
             {| se_conn := 42%nat; se_path := "/"; se_interface := "com.ex.Calc";
                se_name := "changed"; se_args := rpc_array_of [] |} ].
Proof.
  apply (rpc_server_broadcast_event_accepted 7%nat [conn42]
           {| rs_uri := "unix:///tmp/a"; rs_closed := false;
              rs_connections := [conn41]; rs_teardown := Some 0 |}
           two_servers "/" "com.ex.Calc" "changed" (rpc_array_of [])
           eq_refl eq_refl).
Defined.

(** ** The post-call hook *)

Section PostCallFacts.

Variable rpc_get_type_name : rpc_type_t -> string.
Variable rpc_find_class_handler :
  rpct_class_t ->
  option (typei_ptr -> rpc_object -> rpct_error_context.t -> world ->
          run (bool * rpct_error_context.t * world)).


End PostCallFacts.

